(** * Agent-config watcher of the traffic manager: model and properties

    Shallow embedding of
    [cmd/traffic/cmd/manager/internal/mutator/agentconfig/watcher.go]
    (the ConfigMap watcher, its cache, the diff step, the dispatch loop and
    the config store) and of the observable map exercised by
    [cmd/traffic/cmd/manager/internal/watchable/generic_test.tmpl.go].

    Go maps [map[string]string] are [gmap string string]; a map that may be
    [nil] (the [Data] field of a ConfigMap, the argument of [update]) is an
    [option] of one.  Channels are modelled by the list of entries sent on
    them, the API server and the other collaborators by an environment of
    answers, and every remote call or log line by an entry of an effect
    trace. *)

From stdpp Require Import gmap strings list fin_maps.

Abbreviation strmap := (gmap string string).

(** ** Data model *)

(** [entry] of watcher.go: one key of a namespace's ConfigMap. *)
Record entry : Type := Entry {
  name : string;
  namespace : string;
  value : string;
}.

#[global] Instance entry_eq_dec : EqDecision entry.
Proof. solve_decision. Defined.

(** [configWatcher] of watcher.go.  The mutex, the cancel function and the
    two channels carry no data of their own: the lock is held over the whole
    of each critical section modelled below as one function, and the
    channels are modelled by what is sent on them. *)
Record configWatcher : Type := ConfigWatcher {
  cw_name : string;
  namespaces : list string;
  data : gmap string strmap;
}.

(** [NewWatcher]. *)
Definition NewWatcher (nm : string) (nss : list string) : configWatcher :=
  {| cw_name := nm; namespaces := nss; data := ∅ |}.

Definition set_data (c : configWatcher) (d : gmap string strmap) : configWatcher :=
  {| cw_name := cw_name c; namespaces := namespaces c; data := d |}.

(** Reading a possibly nil Go map: a nil map has no keys. *)
Definition go_lookup (m : option strmap) (k : string) : option string :=
  m ≫= (.!! k).

(** [range] over a possibly nil Go map. *)
Definition go_range (m : option strmap) : list (string * string) :=
  from_option map_to_list [] m.

(** The cached map of a namespace, empty when the namespace is unknown:
    what [update] works on after its [if !ok] branch. *)
Definition cached (c : configWatcher) (ns : string) : strmap :=
  default ∅ (data c !! ns).

(** ** The diff step: [configWatcher.update] *)

(** Body of the first loop of [update], for one [k, v] of [range data]. *)
Definition del_step (ns : string) (m : option strmap)
    (st : strmap * list entry) (kv : string * string) : strmap * list entry :=
  match go_lookup m kv.1 with
  | None => (delete kv.1 st.1, st.2 ++ [Entry kv.1 ns kv.2])
  | Some _ => st
  end.

(** Body of the second loop of [update], for one [k, v] of [range m]:
    [if ov, ok := data[k]; !ok || ov != v]. *)
Definition mod_step (ns : string)
    (st : strmap * list entry) (kv : string * string) : strmap * list entry :=
  match st.1 !! kv.1 with
  | Some ov =>
      if bool_decide (ov ≠ kv.2)
      then (<[kv.1 := kv.2]> st.1, st.2 ++ [Entry kv.1 ns kv.2])
      else st
  | None => (<[kv.1 := kv.2]> st.1, st.2 ++ [Entry kv.1 ns kv.2])
  end.

(** The two loops, over given iteration orders [it1] of the cached map and
    [it2] of the new map (Go leaves the order of [range] open). *)
Definition update_loops (ns : string) (m : option strmap)
    (it1 it2 : list (string * string)) (d : strmap)
    : strmap * list entry * list entry :=
  let st1 := foldl (del_step ns m) (d, []) it1 in
  let st2 := foldl (mod_step ns) (st1.1, []) it2 in
  (st2.1, st1.2, st2.2).

(** The result of one diff: the two batches handed to [writeToChan]. *)
Record diff : Type := Diff {
  dels : list entry;
  mods : list entry;
}.

(** [update], up to the two [go writeToChan] statements: the new state of
    the watcher and the computed batches. *)
Definition update (c : configWatcher) (ns : string) (m : option strmap)
    : configWatcher * diff :=
  let d := cached c ns in
  let r := update_loops ns m (map_to_list d) (go_range m) d in
  (set_data c (<[ns := r.1.1]> (data c)), Diff r.1.2 r.2).

(** ** External collaborators *)

(** The fields of [agent.Config] that the watcher reads.  The package
    [pkg/install/agent] is a collaborator: the remaining fields of the
    configuration travel inside the serialized form only. *)
Record Config : Type := mkConfig {
  AgentName : string;
  Namespace : string;
  WorkloadName : string;
  WorkloadKind : string;
  Create : bool;
}.

(** [k8sapi.Workload], by the four getters the watcher uses. *)
Record Workload : Type := mkWorkload {
  GetKind : string;
  GetName : string;
  GetNamespace : string;
  GetPodTemplate : string;
}.

(** [core.ConfigMap]: its name, its namespace and its possibly nil [Data]. *)
Record ConfigMapObj : Type := mkConfigMap {
  Name : string;
  Namespace_of : string;
  Data : option strmap;
}.

(** Go [error] values, by where they are made. *)
Inductive error : Type :=
  | ErrYaml (msg : string)
  | ErrApi (notFound : bool) (msg : string)
  | ErrGenerate (msg : string)
  | ErrDecodeEntry (v : string)
  | ErrGetWorkload (kind nm ns : string) (cause : error)
  | ErrGetConfigMap (cm : string) (cause : error).

(** [errors.IsNotFound]. *)
Definition IsNotFound (err : error) : bool :=
  match err with
  | ErrApi nf _ => nf
  | _ => false
  end.

(** Everything the watcher does to the outside, in the order it does it. *)
Inductive effect : Type :=
  | Infof (fmt : string) (args : list string)
  | Errorf (fmt : string) (args : list string) (err : error)
  | LogError (err : error)
  | CallGetWorkload (nm ns kind : string)
  | CallGenerate (wl : Workload) (podTemplate : string)
  | CallPatch (wl : Workload)
  | CallGet (ns cm : string)
  | CallCreate (ns : string) (cm : ConfigMapObj)
  | CallUpdate (ns : string) (cm : ConfigMapObj).

(** The answers of the collaborators, and the two constants of package
    [agent] that the watcher refers to ([agent.ConfigMap], the fixed name
    of the configuration resource, and [agent.InjectorKey], the reserved
    key of the injector settings).  A property of one event quantifies
    over every environment, that is over every answer the cluster can
    give to the calls made for that event. *)
Record Env : Type := mkEnv {
  agent_ConfigMap : string;
  agent_InjectorKey : string;
  yaml_decode : string → error + Config;
  yaml_encode : Config → error + string;
  k8s_GetWorkload : string → string → string → error + Workload;
  Generate : Workload → string → error + Config;
  wl_Patch : Workload → option error;
  api_Get : string → string → error + ConfigMapObj;
  api_Create : string → ConfigMapObj → option error;
  api_Update : string → ConfigMapObj → option error;
}.

(** What a [select] of the dispatch loop of [Run] picks. *)
Inductive selected : Type :=
  | CtxDone
  | FromDelCh (e : entry)
  | FromAddCh (e : entry).

(** [watch.EventType] and [watch.Event]; the object of an event is a
    ConfigMap or something else (the type assertion fails). *)
Inductive EventType : Type := Added | Modified | Deleted | Bookmark | Error.

Inductive Object : Type :=
  | ObjConfigMap (m : ConfigMapObj)
  | ObjOther.

Record Event : Type := mkEvent {
  Type_of : EventType;
  Object_of : Object;
}.

(** What a [select] of [eventHandler] picks: cancellation, the closed
    result channel, or an event. *)
Inductive received : Type :=
  | EvCtxDone
  | EvClosed
  | EvEvent (ev : Event).

(** What was sent on the two channels. *)
Record sent : Type := Sent {
  on_delCh : list entry;
  on_modCh : list entry;
}.

#[global] Instance Config_eq_dec : EqDecision Config.
Proof. solve_decision. Defined.
#[global] Instance Workload_eq_dec : EqDecision Workload.
Proof. solve_decision. Defined.
#[global] Instance ConfigMapObj_eq_dec : EqDecision ConfigMapObj.
Proof. solve_decision. Defined.
#[global] Instance error_eq_dec : EqDecision error.
Proof. solve_decision. Defined.
#[global] Instance effect_eq_dec : EqDecision effect.
Proof. solve_decision. Defined.

(** ** The watcher's operations *)

Section watcher.
Variable env : Env.

(** [writeToChan]: the entries sent on the channel.  [done_after] is
    [None] when the context is never done, and [Some n] when the
    [select] takes the [ctx.Done()] case once [n] entries have been
    accepted. *)
Fixpoint writeToChan (done_after : option nat) (es : list entry) : list entry :=
  match es with
  | [] => []
  | e :: es' =>
      if decide (name e = agent_InjectorKey env) then writeToChan done_after es'
      else match done_after with
           | Some 0 => []
           | Some (S n) => e :: writeToChan (Some n) es'
           | None => e :: writeToChan None es'
           end
  end.

(** The two goroutines started at the end of [update]. *)
Definition dispatch (done_del done_mod : option nat) (d : diff) : sent :=
  {| on_delCh := writeToChan done_del (dels d);
     on_modCh := writeToChan done_mod (mods d) |}.

(** One event of [eventHandler]: the new state, the log line, and the
    diff handed to the channels when [update] is called. *)
Definition on_event (c : configWatcher) (ev : Event)
    : configWatcher * list effect * option diff :=
  match Type_of ev with
  | Deleted =>
      match Object_of ev with
      | ObjConfigMap m =>
          let r := update c (Namespace_of m) None in
          (r.1, [Infof "%s %s.%s" ["DELETED"; Name m; Namespace_of m]], Some r.2)
      | ObjOther => (c, [], None)
      end
  | Added | Modified =>
      match Object_of ev with
      | ObjConfigMap m =>
          let line :=
            Infof "%s %s.%s"
              [match Type_of ev with Added => "ADDED" | _ => "MODIFIED" end;
               Name m; Namespace_of m] in
          if bool_decide (Name m ≠ agent_ConfigMap env) then (c, [line], None)
          else
            let r := update c (Namespace_of m) (Data m) in
            (r.1, [line], Some r.2)
      | ObjOther => (c, [], None)
      end
  | Bookmark | Error => (c, [], None)
  end.

(** [eventHandler]: the state, the log, the diffs in the order they were
    computed, and the result: [Some false] on cancellation, [Some true]
    when the result channel was closed (restart the watch), [None] while
    it still waits. *)
Fixpoint eventHandler (c : configWatcher) (evCh : list received)
    : configWatcher * list effect * list diff * option bool :=
  match evCh with
  | [] => (c, [], [], None)
  | EvCtxDone :: _ => (c, [], [], Some false)
  | EvClosed :: _ => (c, [], [], Some true)
  | EvEvent ev :: rest =>
      let '(c1, log1, d1) := on_event c ev in
      let '(c2, log2, ds, r) := eventHandler c1 rest in
      (c2, log1 ++ log2, option_list d1 ++ ds, r)
  end.

(** [entry.workload]. *)
Definition workload (e : entry) : list effect * (error + Config * Workload) :=
  match yaml_decode env (value e) with
  | inl _ => ([], inl (ErrDecodeEntry (value e)))
  | inr ac =>
      let call := CallGetWorkload (WorkloadName ac) (Namespace ac) (WorkloadKind ac) in
      match k8s_GetWorkload env (WorkloadName ac) (Namespace ac) (WorkloadKind ac) with
      | inl err =>
          ([call],
           inl (ErrGetWorkload (WorkloadKind ac) (WorkloadName ac) (Namespace ac) err))
      | inr wl => ([call], inr (ac, wl))
      end
  end.

(** [triggerRollout]; the patch is the restart annotation, whose text
    (a time stamp) is not modelled. *)
Definition triggerRollout (wl : Workload) : list effect :=
  CallPatch wl ::
  match wl_Patch env wl with
  | Some err =>
      [Errorf "unable to patch %s %s.%s: %v"
         [GetKind wl; GetName wl; GetNamespace wl] err]
  | None =>
      [Infof "Successfully rolled out %s.%s" [GetName wl; GetNamespace wl]]
  end.

(** The critical section of [Store] (between [c.Lock()] and
    [c.Unlock()]): whether the cached value equals [yml], and the cache
    afterwards. *)
Definition Store_locked (c : configWatcher) (ns agentName yml : string)
    (updateSnapshot : bool) : bool * configWatcher :=
  let '(eq, nm) :=
    match data c !! ns with
    | Some nm =>
        (match nm !! agentName with
         | Some old => bool_decide (old = yml)
         | None => false
         end, nm)
    | None => (false, ∅)
    end in
  let nm' := if updateSnapshot && negb eq then <[agentName := yml]> nm else nm in
  (eq, set_data c (<[ns := nm']> (data c))).

(** [configWatcher.Store]. *)
Definition Store (c : configWatcher) (ac : Config) (updateSnapshot : bool)
    : configWatcher * list effect * option error :=
  match yaml_encode env ac with
  | inl err => (c, [], Some err)
  | inr yml =>
      let ns := Namespace ac in
      let get := CallGet ns (agent_ConfigMap env) in
      let got := api_Get env ns (agent_ConfigMap env) in
      match got with
      | inl err =>
          if negb (IsNotFound err)
          then (c, [get], Some (ErrGetConfigMap (agent_ConfigMap env) err))
          else
            let '(eq, c') := Store_locked c ns (AgentName ac) yml updateSnapshot in
            if eq then (c', [get], None)
            else
              let cm := {| Name := agent_ConfigMap env; Namespace_of := ns;
                           Data := Some {[ AgentName ac := yml ]} |} in
              (c',
               [get;
                Infof "creating new ConfigMap %s.%s" [agent_ConfigMap env; ns];
                CallCreate ns cm],
               api_Create env ns cm)
      | inr cm =>
          let '(eq, c') := Store_locked c ns (AgentName ac) yml updateSnapshot in
          if eq then (c', [get], None)
          else
            let cm' := {| Name := Name cm; Namespace_of := Namespace_of cm;
                          Data := Some (<[AgentName ac := yml]> (default ∅ (Data cm))) |} in
            (c',
             [get;
              Infof "updating ConfigMap %s.%s" [agent_ConfigMap env; ns];
              CallUpdate ns cm'],
             api_Update env ns cm')
      end
  end.

(** The body of the [for] loop of [Run] for an entry received on
    [delCh]. *)
Definition Run_del (c : configWatcher) (e : entry) : configWatcher * list effect :=
  let line := Infof "del %s.%s: %s" [name e; namespace e; value e] in
  match workload e with
  | (tr, inl err) => (c, line :: tr ++ [LogError err])
  | (tr, inr (ac, wl)) =>
      if Create ac then (c, line :: tr)
      else (c, line :: tr ++ triggerRollout wl)
  end.

(** The body of the [for] loop of [Run] for an entry received on
    [addCh].  The call in the source is
    [c.Store(ctx, ac.Namespace, ac, false)]: the snapshot flag is
    [false]. *)
Definition Run_add (c : configWatcher) (e : entry) : configWatcher * list effect :=
  let line := Infof "add %s.%s: %s" [name e; namespace e; value e] in
  match workload e with
  | (tr, inl err) => (c, line :: tr ++ [LogError err])
  | (tr, inr (ac, wl)) =>
      if Create ac then
        let gen := CallGenerate wl (GetPodTemplate wl) in
        match Generate env wl (GetPodTemplate wl) with
        | inl err => (c, line :: tr ++ [gen; LogError err])
        | inr ac' =>
            let '(c', tr', r) := Store c ac' false in
            (c', line :: tr ++ gen :: tr' ++
                 match r with Some err => [LogError err] | None => [] end)
        end
      else (c, line :: tr ++ triggerRollout wl)
  end.

(** [configWatcher.Run] after [Start] (which returns no error): the
    state, the trace, and the result: [Some None] when it returned [nil],
    [None] while it still waits in the [select]. *)
Fixpoint Run (c : configWatcher) (sel : list selected)
    : configWatcher * list effect * option (option error) :=
  match sel with
  | [] => (c, [], None)
  | CtxDone :: _ => (c, [], Some None)
  | FromDelCh e :: rest =>
      let '(c1, tr1) := Run_del c e in
      let '(c2, tr2, r) := Run c1 rest in
      (c2, tr1 ++ tr2, r)
  | FromAddCh e :: rest =>
      let '(c1, tr1) := Run_add c e in
      let '(c2, tr2, r) := Run c1 rest in
      (c2, tr1 ++ tr2, r)
  end.

(** [configWatcher.GetInto], returning the decoded configuration in
    place of writing it through the pointer. *)
Definition GetInto (c : configWatcher) (key ns : string)
    : option Config * option error :=
  match data c !! ns ≫= (.!! key) with
  | None => (None, None)
  | Some v =>
      match yaml_decode env v with
      | inl err => (None, Some err)
      | inr ac => (Some ac, None)
      end
  end.
End watcher.

(** Whether a trace holds a rollout patch, a remote write, a call of the
    generator. *)
Definition is_patch (x : effect) : bool :=
  match x with CallPatch _ => true | _ => false end.

Definition is_remote_write (x : effect) : bool :=
  match x with CallCreate _ _ | CallUpdate _ _ => true | _ => false end.

Definition is_generate (x : effect) : bool :=
  match x with CallGenerate _ _ => true | _ => false end.

Definition patches (tr : list effect) : list effect := List.filter is_patch tr.
Definition remote_writes (tr : list effect) : list effect := List.filter is_remote_write tr.

(** One schedule of the dispatch loop for what was sent on the two
    channels: the deleted entries, then the modified ones. *)
Definition feed (s : sent) : list selected :=
  (FromDelCh <$> on_delCh s) ++ (FromAddCh <$> on_modCh s).

(** The entry that [update] makes of a key and a value. *)
Definition mk_entry (ns : string) (kv : string * string) : entry :=
  Entry kv.1 ns kv.2.

(** The entries that [writeToChan] does not skip. *)
Definition not_reserved (env : Env) (e : entry) : Prop :=
  name e ≠ agent_InjectorKey env.

#[global] Instance not_reserved_dec (env : Env) (e : entry) : Decision (not_reserved env e).
Proof. unfold not_reserved. apply _. Defined.

Definition is_store_call (x : effect) : bool :=
  match x with
  | CallGet _ _ | CallCreate _ _ | CallUpdate _ _ => true
  | _ => false
  end.

(** * The observable map *)

Module watchable.
Section Map.
Context {V : Type} `{EqDecision V}.

(** Modelled from the spec: the implementation of the observable map
    (package [watchable]) is not part of the sources, only its test
    template is.  A subscription holds an optional predicate (absent:
    match all), a pending dirty flag, and a delivery channel of depth 1;
    [live] is false once the channel is closed. *)
Record subscription : Type := Subscription {
  include : option (string → V → bool);
  dirty : bool;
  chan : option (gmap string V);
  live : bool;
}.

(** Modelled from the spec: the map, its subscriptions and whether it was
    closed. *)
Record Map : Type := mkMap {
  content : gmap string V;
  subs : list subscription;
  closed : bool;
}.

(** Modelled from the spec: the zero value of the map type is an empty
    open map (the tests start from [var m watchable.MAPTYPE]). *)
Definition zero : Map := {| content := ∅; subs := []; closed := false |}.

Definition matches (inc : option (string → V → bool)) (k : string) (v : V) : bool :=
  match inc with
  | None => true
  | Some p => p k v
  end.

(** Modelled from the spec: the full current snapshot restricted to the
    entries matching the predicate. *)
Definition snapshot (inc : option (string → V → bool)) (m : gmap string V)
    : gmap string V :=
  filter (λ kv, matches inc kv.1 kv.2 = true) m.

(** Modelled from the spec: a write marks every matching subscription
    dirty; an entry that stops matching counts as a deletion, so the
    value before the write is matched too. *)
Definition touch (k : string) (old new : option V) (s : subscription) : subscription :=
  if live s && (from_option (matches (include s) k) false old
                || from_option (matches (include s) k) false new)
  then {| include := include s; dirty := true; chan := chan s; live := live s |}
  else s.

(** Modelled from the spec: [LoadAll] and [Load]. *)
Definition LoadAll (m : Map) : gmap string V := content m.
Definition Load (m : Map) (k : string) : option V := content m !! k.

(** Modelled from the spec: [Store] is an upsert; a write of a value
    equal to the stored one notifies nobody; after [Close] it does
    nothing. *)
Definition Store (k : string) (v : V) (m : Map) : Map :=
  if closed m then m
  else if decide (content m !! k = Some v) then m
  else {| content := <[k := v]> (content m);
          subs := touch k (content m !! k) (Some v) <$> subs m;
          closed := false |}.

(** Modelled from the spec: [Delete] removes the key and notifies the
    subscribers whose predicate matched it. *)
Definition Delete (k : string) (m : Map) : Map :=
  if closed m then m
  else match content m !! k with
       | None => m
       | Some old =>
           {| content := delete k (content m);
              subs := touch k (Some old) None <$> subs m;
              closed := false |}
       end.

Definition LoadAndDelete (k : string) (m : Map) : option V * Map :=
  (content m !! k, Delete k m).

Definition LoadOrStore (k : string) (v : V) (m : Map) : V * bool * Map :=
  match content m !! k with
  | Some old => (old, true, m)
  | None => (v, false, Store k v m)
  end.

(** Modelled from the spec: [SubscribeSubset] registers a subscription
    and immediately enqueues the current snapshot as the first delivery;
    on a closed map the channel is closed from the start.  The result is
    the map and the index of the new subscription. *)
Definition SubscribeSubset (inc : option (string → V → bool)) (m : Map) : Map * nat :=
  let s := if closed m
           then {| include := inc; dirty := false; chan := None; live := false |}
           else {| include := inc; dirty := false;
                   chan := Some (snapshot inc (content m)); live := true |} in
  ({| content := content m; subs := subs m ++ [s]; closed := closed m |},
   length (subs m)).

Definition Subscribe (m : Map) : Map * nat := SubscribeSubset None m.

Definition shut (s : subscription) : subscription :=
  {| include := include s; dirty := false; chan := None; live := false |}.

(** Modelled from the spec: [Close] closes the map and the channel of
    every subscription; cancelling the lifetime of one subscription
    closes its channel. *)
Definition Close (m : Map) : Map :=
  {| content := content m; subs := shut <$> subs m; closed := true |}.

Definition cancel (i : nat) (m : Map) : Map :=
  {| content := content m; subs := alter shut i (subs m); closed := closed m |}.

(** What a read of a subscription's channel gives. *)
Inductive read : Type :=
  | Snapshot (s : gmap string V)
  | EndOfStream
  | WouldBlock.

(** Modelled from the spec: a read of the channel of subscription [i]
    takes the enqueued snapshot; with none enqueued and the dirty flag
    set, the scheduled delivery computes the snapshot of the content as
    it is now, all writes since the last delivery coalesced. *)
Definition recv (i : nat) (m : Map) : read * Map :=
  match subs m !! i with
  | None => (WouldBlock, m)
  | Some s =>
      if negb (live s) then (EndOfStream, m)
      else match chan s with
           | Some snap =>
               (Snapshot snap,
                {| content := content m;
                   subs := <[i := {| include := include s; dirty := dirty s;
                                     chan := None; live := true |}]> (subs m);
                   closed := closed m |})
           | None =>
               if dirty s
               then (Snapshot (snapshot (include s) (content m)),
                     {| content := content m;
                        subs := <[i := {| include := include s; dirty := false;
                                          chan := None; live := true |}]> (subs m);
                        closed := closed m |})
               else (WouldBlock, m)
           end
  end.

(** The writes of the map's interface. *)
Inductive write : Type :=
  | WStore (k : string) (v : V)
  | WDelete (k : string)
  | WLoadAndDelete (k : string)
  | WLoadOrStore (k : string) (v : V).

Definition apply_write (m : Map) (w : write) : Map :=
  match w with
  | WStore k v => Store k v m
  | WDelete k => Delete k m
  | WLoadAndDelete k => (LoadAndDelete k m).2
  | WLoadOrStore k v => (LoadOrStore k v m).2
  end.

Definition apply_writes (m : Map) (ws : list write) : Map :=
  foldl apply_write m ws.
End Map.
Arguments subscription : clear implicits.
Arguments Map : clear implicits.
Arguments read : clear implicits.
Arguments write : clear implicits.
End watchable.

(** What the writes preserve of a live match-all subscription whose
    channel holds the snapshot [first]: the snapshot stays, and the dirty
    flag is set as soon as the content is no longer [first]. *)
Definition holds_first {V : Type} (first : gmap string V) (i : nat)
    (m : watchable.Map V) : Prop :=
  ∃ s, watchable.subs m !! i = Some s
       ∧ watchable.include s = None ∧ watchable.live s = true
       ∧ watchable.chan s = Some first
       ∧ (watchable.dirty s = false → watchable.content m = first).

(** ** Sample environment *)

Definition sample_create : Config := mkConfig "w1" "ns" "w1" "Deployment" true.
Definition sample_generated : Config := mkConfig "w1" "ns" "w1" "Deployment" false.
Definition sample_wl : Workload := mkWorkload "Deployment" "w1" "ns" "containers: [app]".

Definition sample_decode (v : string) : error + Config :=
  if decide (v = "create: true") then inr sample_create
  else if decide (v = "create: false") then inr sample_generated
  else inl (ErrYaml "cannot unmarshal").

Definition sample_encode (ac : Config) : error + string :=
  inr (if Create ac then "create: true" else "create: false").

Definition sample_env : Env :=
  {| agent_ConfigMap := "telepresence-agents";
     agent_InjectorKey := "agentInjector";
     yaml_decode := sample_decode;
     yaml_encode := sample_encode;
     k8s_GetWorkload := λ nm ns kind,
       if decide (nm = "w1") then inr sample_wl else inl (ErrApi true "not found");
     Generate := λ _ _, inr sample_generated;
     wl_Patch := λ _, None;
     api_Get := λ ns nm, inr (mkConfigMap nm ns (Some {[ "w1" := "create: true" ]}));
     api_Create := λ _ _, None;
     api_Update := λ _ _, None |}.

(** The same cluster, with reads of the ConfigMap forbidden. *)
Definition sample_env_forbidden : Env :=
  {| agent_ConfigMap := "telepresence-agents";
     agent_InjectorKey := "agentInjector";
     yaml_decode := sample_decode;
     yaml_encode := sample_encode;
     k8s_GetWorkload := k8s_GetWorkload sample_env;
     Generate := Generate sample_env;
     wl_Patch := λ _, None;
     api_Get := λ _ _, inl (ErrApi false "forbidden");
     api_Create := λ _ _, None;
     api_Update := λ _ _, None |}.

(** A watcher whose cache of namespace [ns] holds the injector settings
    and one agent configuration. *)
Definition sample_watcher : configWatcher :=
  set_data (NewWatcher "telepresence-agents" [])
    {[ "ns" := ({[ "agentInjector" := "namespaced: true";
                   "w1" := "create: false" ]} : strmap) ]}.

(** The map of the test template after its three first stores. *)
Definition abc : watchable.Map string :=
  watchable.Store "c" "C" (watchable.Store "b" "B" (watchable.Store "a" "A" watchable.zero)).

(** ** The rest of the watcher *)

(** [agentInjectorConfig]. *)
Record agentInjectorConfig : Type := mkInjectorConfig {
  Namespaced : bool;
  Namespaces : list string;
}.

(** The zero value that [Load] decodes into. *)
Definition zero_agentInjectorConfig : agentInjectorConfig :=
  {| Namespaced := false; Namespaces := [] |}.

(** One turn of the loop of [do]: the context is found cancelled when the
    loop condition [ctx.Err() == nil] is evaluated, or [Watch] fails, or it
    gives a result channel. *)
Inductive watch_attempt : Type :=
  | CtxErr
  | WatchFails (err : error)
  | Watching (evCh : list received).

Section watcher_rest.
Variable env : Env.

(** [decode] into an [agentInjectorConfig]: the YAML decoder is a
    collaborator. *)
Variable decode_injector : string → error + agentInjectorConfig.

(** [Load]: the log, and the error or the watcher.  The error of [Get] is
    not looked at again after the [if err == nil]. *)
Definition Load (namespace : string) : list effect * (error + configWatcher) :=
  let get := CallGet namespace (agent_ConfigMap env) in
  let loading (ac : agentInjectorConfig) :=
    Infof "Loading ConfigMaps from %v" (Namespaces ac) in
  match api_Get env namespace (agent_ConfigMap env) with
  | inr cm =>
      match go_lookup (Data cm) (agent_InjectorKey env) with
      | Some v =>
          match decode_injector v with
          | inl err => ([get], inl err)
          | inr ac =>
              ([get;
                Infof "using %q entry from ConfigMap %s"
                  [agent_InjectorKey env; agent_ConfigMap env];
                loading ac],
               inr (NewWatcher (agent_ConfigMap env) (Namespaces ac)))
          end
      | None =>
          ([get; loading zero_agentInjectorConfig],
           inr (NewWatcher (agent_ConfigMap env) (Namespaces zero_agentInjectorConfig)))
      end
  | inl _ =>
      ([get; loading zero_agentInjectorConfig],
       inr (NewWatcher (agent_ConfigMap env) (Namespaces zero_agentInjectorConfig)))
  end.

(** The events of a result channel, handled one after the other: the state,
    the log and the diffs. *)
Fixpoint on_events (c : configWatcher) (evs : list Event)
    : configWatcher * list effect * list diff :=
  match evs with
  | [] => (c, [], [])
  | ev :: rest =>
      let r := on_event env c ev in
      let r' := on_events r.1.1 rest in
      (r'.1.1, r.1.2 ++ r'.1.2, option_list r.2 ++ r'.2)
  end.

(** The [for ctx.Err() == nil] loop of the closure [do] of [Start]: the
    state, the log, the diffs, and whether the closure has returned. *)
Fixpoint do_loop (c : configWatcher) (turns : list watch_attempt)
    : configWatcher * list effect * list diff * bool :=
  match turns with
  | [] => (c, [], [], false)
  | CtxErr :: _ => (c, [], [], true)
  | WatchFails err :: _ =>
      (c, [Errorf "unable to create watcher: %v" [] err], [], true)
  | Watching evCh :: rest =>
      let '(c1, log1, ds1, r) := eventHandler env c evCh in
      match r with
      | Some true =>
          let '(c2, log2, ds2, ended) := do_loop c1 rest in
          (c2, log1 ++ log2, ds1 ++ ds2, ended)
      | Some false => (c1, log1, ds1, true)
      | None => (c1, log1, ds1, false)
      end
  end.

(** The closure [do] of [Start] for namespace [ns], with its first log line
    and its deferred last one. *)
Definition do (c : configWatcher) (ns : string) (turns : list watch_attempt)
    : configWatcher * list effect * list diff * bool :=
  let '(c1, log, ds, ended) := do_loop c turns in
  (c1,
   Infof "Started watcher for ConfigMap %s.%s" [agent_ConfigMap env; ns] :: log
   ++ (if ended
       then [Infof "Ended watcher for ConfigMap %s.%s" [agent_ConfigMap env; ns]]
       else []),
   ds, ended).

(** [Start]: the namespaces for which a [do] goroutine is started; the
    error it returns is always [nil]. *)
Definition Start (c : configWatcher) : list string * option error :=
  (match namespaces c with
   | [] => [""]
   | nss => nss
   end, None).
End watcher_rest.

(** Whether the [Get] of [Store] for namespace [ns] fails with an error
    other than not-found, which ends [Store]. *)
Definition read_refused (env : Env) (ns : string) : bool :=
  match api_Get env ns (agent_ConfigMap env) with
  | inl err => negb (IsNotFound err)
  | inr _ => false
  end.

(** The ConfigMap that [Store] writes for a configuration serialized as
    [yml]: a new one when [Get] found none, the one found with the key set
    otherwise. *)
Definition written_by_Store (env : Env) (ac : Config) (yml : string) : effect :=
  match api_Get env (Namespace ac) (agent_ConfigMap env) with
  | inl _ =>
      CallCreate (Namespace ac)
        {| Name := agent_ConfigMap env; Namespace_of := Namespace ac;
           Data := Some {[ AgentName ac := yml ]} |}
  | inr cm =>
      CallUpdate (Namespace ac)
        {| Name := Name cm; Namespace_of := Namespace_of cm;
           Data := Some (<[AgentName ac := yml]> (default ∅ (Data cm))) |}
  end.

(** How many effects of a trace are of a kind. *)
Definition count (f : effect → bool) (tr : list effect) : nat :=
  length (List.filter f tr).

(** A diff applied to a map: the deleted keys removed, then the modified
    ones set. *)
Definition apply_diff (d : diff) (old : strmap) : strmap :=
  foldl (λ acc e, <[name e := value e]> acc)
    (foldl (λ acc e, delete (name e) acc) old (dels d)) (mods d).

(** The events for which [eventHandler] calls [update] or logs: an
    [Added], [Modified] or [Deleted] event whose object is a ConfigMap. *)
Definition concerns_ConfigMap (ev : Event) : bool :=
  match Type_of ev, Object_of ev with
  | (Added | Modified | Deleted), ObjConfigMap _ => true
  | _, _ => false
  end.

Definition is_FromAddCh (s : selected) : bool :=
  match s with FromAddCh _ => true | _ => false end.

Definition is_entry (s : selected) : bool :=
  match s with CtxDone => false | _ => true end.

(** ** The helper of the observable map's tests *)

Module watchable_test.
Section snapshot_equal.
Context {V : Type}.

(** The zero value of [VALTYPE], which [expected[k]] gives for a missing
    key, and [assertDeepCopies], which is declared outside the template. *)
Variable zero : V.
Variable assertDeepCopies : V → V → bool.

(** The keys collected by [for k := range m]. *)
Definition keys (m : gmap string V) : list string := (map_to_list m).*1.

(** [assert.ElementsMatch] on two lists of keys: the same elements, in any
    order. *)
Definition ElementsMatch (a b : list string) : bool := bool_decide (a ≡ₚ b).

(** [assertMAPTYPESnapshotEqual], without the reporting to [t]. *)
Definition assertMAPTYPESnapshotEqual (expected actual : gmap string V) : bool :=
  if negb (ElementsMatch (keys expected) (keys actual)) then false
  else forallb (λ kv, assertDeepCopies (default zero (expected !! kv.1)) kv.2)
         (map_to_list actual).
End snapshot_equal.
End watchable_test.

(** A subscription of the observable map that has been read and waits: no
    snapshot enqueued, not dirty, its last delivery the current content. *)
Definition drained {V : Type} (i : nat) (m : watchable.Map V) : Prop :=
  ∃ s, watchable.subs m !! i = Some s
       ∧ watchable.include s = None ∧ watchable.live s = true
       ∧ watchable.chan s = None ∧ watchable.dirty s = false.

(** What the writes keep of a drained subscription: nothing is enqueued,
    and the dirty flag is set as soon as the content is no longer [last]. *)
Definition coalescing {V : Type} (last : gmap string V) (i : nat)
    (m : watchable.Map V) : Prop :=
  ∃ s, watchable.subs m !! i = Some s
       ∧ watchable.include s = None ∧ watchable.live s = true
       ∧ watchable.chan s = None
       ∧ (watchable.dirty s = false → watchable.content m = last).

(** The decoder of the injector settings of the sample cluster. *)
Definition sample_decode_injector (v : string) : error + agentInjectorConfig :=
  if decide (v = "namespaced: true") then inr (mkInjectorConfig true ["ns"; "other"])
  else inl (ErrYaml "cannot unmarshal").

(** The sample cluster with no ConfigMap yet. *)
Definition sample_env_empty : Env :=
  {| agent_ConfigMap := "telepresence-agents";
     agent_InjectorKey := "agentInjector";
     yaml_decode := sample_decode;
     yaml_encode := sample_encode;
     k8s_GetWorkload := k8s_GetWorkload sample_env;
     Generate := Generate sample_env;
     wl_Patch := λ _, Some (ErrApi false "conflict");
     api_Get := λ _ _, inl (ErrApi true "not found");
     api_Create := λ _ _, Some (ErrApi false "quota exceeded");
     api_Update := λ _ _, None |}.

(** The sample cluster with a ConfigMap that holds the injector settings. *)
Definition sample_env_settings : Env :=
  {| agent_ConfigMap := "telepresence-agents";
     agent_InjectorKey := "agentInjector";
     yaml_decode := sample_decode;
     yaml_encode := sample_encode;
     k8s_GetWorkload := k8s_GetWorkload sample_env;
     Generate := Generate sample_env;
     wl_Patch := λ _, None;
     api_Get := λ ns nm,
       inr (mkConfigMap nm ns (Some {[ "agentInjector" := "namespaced: true" ]}));
     api_Create := λ _ _, None;
     api_Update := λ _ _, None |}.

(** The watcher after the sample ConfigMap was added with a configuration
    still to be created for [w1]. *)
Definition sample_watcher_pending : configWatcher :=
  (update (NewWatcher "telepresence-agents" []) "ns"
     (Some {[ "w1" := "create: true" ]})).1.

(** * Properties *)

(** ** Lemmas on the two loops of [update] *)

Lemma filter_agree {A} (P Q : A → Prop) `{∀ x, Decision (P x)} `{∀ x, Decision (Q x)}
    (l : list A) :
  (∀ x, x ∈ l → P x ↔ Q x) → filter P l = filter Q l.
Proof.
  induction l as [|a l IH]; intros Hl; [done|].
  rewrite !filter_cons.
  rewrite IH by (intros x Hx; apply Hl; by apply elem_of_cons; right).
  destruct (decide (P a)) as [Hp|Hp], (decide (Q a)) as [Hq|Hq]; try done;
    exfalso; apply (Hl a) in Hp || apply (Hl a) in Hq; try done;
    apply elem_of_cons; by left.
Qed.

Section update_loops.
Variable ns : string.
Variable m : option strmap.

Lemma del_loop_batch (it : list (string * string)) (d : strmap) (acc : list entry) :
  (foldl (del_step ns m) (d, acc) it).2
  = acc ++ (mk_entry ns <$> filter (λ kv, go_lookup m kv.1 = None) it).
Proof.
  revert d acc. induction it as [|[k v] it IH]; intros d acc; simpl.
  - by rewrite app_nil_r.
  - unfold del_step at 2; simpl. rewrite filter_cons; simpl.
    destruct (go_lookup m k) eqn:Hk.
    + rewrite decide_False by done. apply IH.
    + rewrite decide_True by done. rewrite IH, fmap_cons, <- app_assoc. done.
Qed.

Lemma del_loop_data (it : list (string * string)) (d : strmap) (acc : list entry) (k : string) :
  (foldl (del_step ns m) (d, acc) it).1 !! k
  = if decide (k ∈ it.*1 ∧ go_lookup m k = None) then None else d !! k.
Proof.
  revert d acc. induction it as [|[k' v'] it IH]; intros d acc.
  - case_decide as H; [|done]. destruct H as [H _]. by apply elem_of_nil in H.
  - cbn [foldl]. rewrite (surjective_pairing (del_step ns m (d, acc) (k', v'))).
    rewrite IH. unfold del_step. cbn [fst snd].
    rewrite fmap_cons. cbn [fst].
    destruct (go_lookup m k') as [w|] eqn:Hk'; cbn [fst snd].
    + apply decide_ext. rewrite elem_of_cons. split; [tauto|].
      intros [[->|Hin] Hn]; [congruence|done].
    + destruct (decide (k = k')) as [->|Hne].
      * rewrite lookup_delete_eq.
        rewrite (decide_True (P := k' ∈ k' :: it.*1 ∧ _)); [by case_decide|].
        split; [apply elem_of_cons; by left|done].
      * rewrite lookup_delete_ne by done.
        apply decide_ext. rewrite elem_of_cons. split; [tauto|].
        intros [[->|Hin] Hn]; done.
Qed.

Lemma mod_step_data (st : strmap * list entry) (kv : string * string) :
  (mod_step ns st kv).1 = <[kv.1 := kv.2]> st.1.
Proof.
  unfold mod_step. destruct (st.1 !! kv.1) as [ov|] eqn:Hk; [|done].
  case_bool_decide as Hov; [done|]. simpl.
  subst ov. by rewrite insert_id.
Qed.

Lemma mod_step_batch (st : strmap * list entry) (kv : string * string) :
  (mod_step ns st kv).2
  = st.2 ++ (if decide (st.1 !! kv.1 ≠ Some kv.2) then [mk_entry ns kv] else []).
Proof.
  unfold mod_step. destruct (st.1 !! kv.1) as [ov|] eqn:Hk.
  - case_bool_decide as Hov.
    + rewrite decide_True; [done|]. congruence.
    + subst ov. rewrite decide_False; [|by intros []].
      by rewrite app_nil_r.
  - by rewrite decide_True.
Qed.

Lemma mod_loop_data (it : list (string * string)) (d : strmap) (acc : list entry) (k : string) :
  (foldl (mod_step ns) (d, acc) it).1 !! k
  = match (list_to_map (reverse it) : strmap) !! k with
    | Some v => Some v
    | None => d !! k
    end.
Proof.
  revert d acc. induction it as [|[k' v'] it IH]; intros d acc.
  - done.
  - simpl. rewrite (surjective_pairing (mod_step ns (d, acc) (k', v'))).
    rewrite IH, mod_step_data. simpl.
    rewrite reverse_cons, list_to_map_app. simpl.
    rewrite lookup_union.
    destruct (list_to_map (reverse it) !! k) as [w|] eqn:Hw; simpl.
    + by rewrite union_Some_l.
    + rewrite left_id by apply _. rewrite insert_empty.
      destruct (decide (k' = k)) as [->|Hne].
      * by rewrite lookup_singleton_eq, lookup_insert_eq.
      * by rewrite lookup_singleton_ne, lookup_insert_ne.
Qed.

Lemma mod_loop_batch (it : list (string * string)) (d : strmap) (acc : list entry) :
  NoDup it.*1 →
  (foldl (mod_step ns) (d, acc) it).2
  = acc ++ (mk_entry ns <$> filter (λ kv, d !! kv.1 ≠ Some kv.2) it).
Proof.
  revert d acc. induction it as [|[k v] it IH]; intros d acc Hnd.
  - simpl. by rewrite app_nil_r.
  - simpl in *. apply NoDup_cons in Hnd as [Hk Hnd].
    rewrite (surjective_pairing (mod_step ns (d, acc) (k, v))).
    rewrite IH by done. rewrite mod_step_data, mod_step_batch. simpl.
    rewrite filter_cons; simpl.
    assert (filter (λ kv, <[k:=v]> d !! kv.1 ≠ Some kv.2) it
            = filter (λ kv, d !! kv.1 ≠ Some kv.2) it) as ->.
    { apply filter_agree. intros [k' v'] Hin. simpl.
      rewrite lookup_insert_ne; [done|]. intros ->. apply Hk.
      apply list_elem_of_fmap. by exists (k', v'). }
    destruct (decide (d !! k ≠ Some v)); simpl.
    + by rewrite <- app_assoc.
    + by rewrite app_nil_r.
Qed.
End update_loops.

(** ** What [update] computes *)

Lemma go_range_lookup (m : option strmap) (k v : string) :
  (k, v) ∈ go_range m ↔ go_lookup m k = Some v.
Proof.
  destruct m as [m|]; simpl.
  - apply elem_of_map_to_list.
  - split; [intros H; by apply elem_of_nil in H|done].
Qed.

Lemma go_range_NoDup (m : option strmap) : NoDup (go_range m).*1.
Proof. destruct m; simpl; [apply NoDup_fst_map_to_list|constructor]. Qed.

Lemma mk_entry_inj (ns : string) : Inj (=) (=) (mk_entry ns).
Proof. intros [k v] [k' v']; unfold mk_entry; simpl; congruence. Qed.

Lemma update_dels (c : configWatcher) (ns : string) (m : option strmap) :
  dels (update c ns m).2
  = mk_entry ns <$> filter (λ kv, go_lookup m kv.1 = None) (map_to_list (cached c ns)).
Proof. unfold update, update_loops; simpl. by rewrite del_loop_batch. Qed.

Lemma update_mods (c : configWatcher) (ns : string) (m : option strmap) :
  mods (update c ns m).2
  = mk_entry ns <$> filter (λ kv, cached c ns !! kv.1 ≠ Some kv.2) (go_range m).
Proof.
  unfold update, update_loops; simpl.
  rewrite mod_loop_batch by apply go_range_NoDup. simpl. f_equal.
  apply filter_agree. intros [k v] Hin. simpl.
  rewrite del_loop_data. apply go_range_lookup in Hin.
  rewrite decide_False; [done|]. intros [_ Hn]. congruence.
Qed.

Lemma update_cached (c : configWatcher) (ns : string) (m : option strmap) :
  cached (update c ns m).1 ns = default ∅ m.
Proof.
  unfold update, update_loops, cached at 1; simpl. rewrite lookup_insert_eq. simpl.
  apply map_eq. intros k. rewrite mod_loop_data, del_loop_data.
  destruct m as [m|]; simpl.
  - rewrite <- (list_to_map_proper (map_to_list m) (reverse (map_to_list m)));
      [|apply NoDup_fst_map_to_list|by rewrite reverse_Permutation].
    rewrite list_to_map_to_list.
    destruct (m !! k) as [v|] eqn:Hk; [done|].
    case_decide as Hd; [done|].
    destruct (cached c ns !! k) as [w|] eqn:Hw; [|done].
    exfalso. apply Hd. split; [|done].
    apply list_elem_of_fmap. exists (k, w). split; [done|].
    by apply elem_of_map_to_list.
  - rewrite lookup_empty. case_decide as Hd; [done|].
    destruct (cached c ns !! k) as [w|] eqn:Hw; [|done].
    exfalso. apply Hd. split; [|done].
    apply list_elem_of_fmap. exists (k, w). split; [done|].
    by apply elem_of_map_to_list.
Qed.

Lemma update_data_other (c : configWatcher) (ns ns' : string) (m : option strmap) :
  ns ≠ ns' → data (update c ns m).1 !! ns' = data c !! ns'.
Proof. intros Hne. unfold update; simpl. by rewrite lookup_insert_ne. Qed.

Lemma elem_of_update_dels (c : configWatcher) (ns : string) (m : option strmap) (e : entry) :
  e ∈ dels (update c ns m).2
  ↔ namespace e = ns ∧ cached c ns !! name e = Some (value e)
    ∧ go_lookup m (name e) = None.
Proof.
  rewrite update_dels, list_elem_of_fmap. split.
  - intros ([k v] & -> & Hin). apply list_elem_of_filter in Hin as [Hn Hin].
    apply elem_of_map_to_list in Hin. done.
  - intros (Hns & Hc & Hn). exists (name e, value e). split.
    + destruct e; simpl in *; by subst.
    + apply list_elem_of_filter. split; [done|]. by apply elem_of_map_to_list.
Qed.

Lemma elem_of_update_mods (c : configWatcher) (ns : string) (m : option strmap) (e : entry) :
  e ∈ mods (update c ns m).2
  ↔ namespace e = ns ∧ go_lookup m (name e) = Some (value e)
    ∧ cached c ns !! name e ≠ Some (value e).
Proof.
  rewrite update_mods, list_elem_of_fmap. split.
  - intros ([k v] & -> & Hin). apply list_elem_of_filter in Hin as [Hn Hin].
    apply go_range_lookup in Hin. done.
  - intros (Hns & Hc & Hn). exists (name e, value e). split.
    + destruct e; simpl in *; by subst.
    + apply list_elem_of_filter. split; [done|]. by apply go_range_lookup.
Qed.

Lemma NoDup_names_filter (ns : string) (P : string * string → Prop)
    `{∀ x, Decision (P x)} (l : list (string * string)) :
  NoDup l.*1 → NoDup (name <$> (mk_entry ns <$> filter P l)).
Proof.
  intros Hnd. rewrite <- list_fmap_compose.
  assert (name ∘ mk_entry ns = fst) as -> by done.
  induction l as [|a l IH]; [constructor|].
  rewrite fmap_cons in Hnd. apply NoDup_cons in Hnd as [Ha Hnd].
  rewrite filter_cons. destruct (decide (P a)); [|by apply IH].
  rewrite fmap_cons. apply NoDup_cons. split; [|by apply IH].
  intros Hin. apply Ha. apply list_elem_of_fmap in Hin as (x & -> & Hx).
  apply list_elem_of_filter in Hx as [_ Hx]. apply list_elem_of_fmap. by exists x.
Qed.

Lemma update_dels_NoDup (c : configWatcher) (ns : string) (m : option strmap) :
  NoDup (name <$> dels (update c ns m).2).
Proof. rewrite update_dels. apply NoDup_names_filter, NoDup_fst_map_to_list. Qed.

Lemma update_mods_NoDup (c : configWatcher) (ns : string) (m : option strmap) :
  NoDup (name <$> mods (update c ns m).2).
Proof. rewrite update_mods. apply NoDup_names_filter, go_range_NoDup. Qed.

(** Go leaves the order of [range] open: whatever the two orders, the
    cache is the same and the batches hold the same entries. *)
Lemma update_loops_order (ns : string) (m : option strmap) (d : strmap)
    (it1 it2 : list (string * string)) :
  it1 ≡ₚ map_to_list d → it2 ≡ₚ go_range m →
  let r := update_loops ns m it1 it2 d in
  let r0 := update_loops ns m (map_to_list d) (go_range m) d in
  r.1.1 = r0.1.1 ∧ r.1.2 ≡ₚ r0.1.2 ∧ r.2 ≡ₚ r0.2.
Proof.
  intros H1 H2. unfold update_loops. cbn [fst snd].
  assert (Hd : (foldl (del_step ns m) (d, []) it1).1
               = (foldl (del_step ns m) (d, []) (map_to_list d)).1).
  { apply map_eq. intros k. rewrite !del_loop_data. apply decide_ext.
    by rewrite H1. }
  assert (Hnd : NoDup it2.*1) by (rewrite H2; apply go_range_NoDup).
  split; [|split].
  - apply map_eq. intros k. rewrite !mod_loop_data, Hd.
    rewrite <- (list_to_map_proper it2 (reverse it2)) by
      (done || by rewrite reverse_Permutation).
    rewrite <- (list_to_map_proper (go_range m) (reverse (go_range m))) by
      (apply go_range_NoDup || by rewrite reverse_Permutation).
    by rewrite (list_to_map_proper it2 (go_range m)).
  - rewrite !del_loop_batch. simpl. by rewrite H1.
  - rewrite !mod_loop_batch by (done || apply go_range_NoDup). simpl.
    rewrite Hd. by rewrite H2.
Qed.

(** ** Lemmas on [writeToChan] *)

Section writeToChan.
Variable env : Env.

Lemma writeToChan_never_done (es : list entry) :
  writeToChan env None es = filter (not_reserved env) es.
Proof.
  induction es as [|e es IH]; [done|]. simpl. rewrite filter_cons.
  unfold not_reserved at 1.
  destruct (decide (name e = agent_InjectorKey env)) as [He|He].
  - rewrite decide_False by (by intros ?). done.
  - rewrite decide_True by done. by rewrite IH.
Qed.

Lemma writeToChan_done_after (n : nat) (es : list entry) :
  writeToChan env (Some n) es = take n (filter (not_reserved env) es).
Proof.
  revert n. induction es as [|e es IH]; intros n; [by destruct n|].
  simpl. rewrite filter_cons. unfold not_reserved at 1.
  destruct (decide (name e = agent_InjectorKey env)) as [He|He].
  - rewrite decide_False by (by intros ?). apply IH.
  - rewrite decide_True by done. destruct n as [|n]; [done|].
    simpl. by rewrite IH.
Qed.

Lemma writeToChan_prefix (done_after : option nat) (es : list entry) :
  writeToChan env done_after es `prefix_of` filter (not_reserved env) es.
Proof.
  destruct done_after as [n|].
  - rewrite writeToChan_done_after. apply prefix_take.
  - by rewrite writeToChan_never_done.
Qed.

Lemma elem_of_writeToChan (done_after : option nat) (es : list entry) (e : entry) :
  e ∈ writeToChan env done_after es → e ∈ es ∧ name e ≠ agent_InjectorKey env.
Proof.
  intros Hin. destruct (writeToChan_prefix done_after es) as [k Hk].
  assert (He : e ∈ filter (not_reserved env) es).
  { rewrite Hk. apply elem_of_app. by left. }
  apply list_elem_of_filter in He as [? ?]. done.
Qed.
End writeToChan.

(** ** The diff step *)

(** C2.  For every state of the cache and every non-nil new map [m] of a
    namespace, [update] computes: a delete-entry for exactly the keys that
    are cached and absent from [m], with the cached value; a modify-entry
    for exactly the keys of [m] that are not cached or cached with another
    value, with the new value; no entry for a key whose value is unchanged;
    at most one entry per key in each batch; and afterwards the cache of the
    namespace is [m]. *)
Theorem update_computes_diff (c : configWatcher) (ns : string) (m : strmap) :
  let r := update c ns (Some m) in
  (∀ e, e ∈ dels r.2 ↔
        namespace e = ns ∧ cached c ns !! name e = Some (value e)
        ∧ m !! name e = None)
  ∧ (∀ e, e ∈ mods r.2 ↔
          namespace e = ns ∧ m !! name e = Some (value e)
          ∧ (cached c ns !! name e = None
             ∨ ∃ ov, cached c ns !! name e = Some ov ∧ ov ≠ value e))
  ∧ (∀ k v, cached c ns !! k = Some v → m !! k = Some v →
            (k ∉ (name <$> dels r.2)) ∧ (k ∉ (name <$> mods r.2)))
  ∧ NoDup (name <$> dels r.2) ∧ NoDup (name <$> mods r.2)
  ∧ data r.1 !! ns = Some m.
Proof.
  cbn zeta. split; [|split; [|split; [|split; [|split]]]].
  - intros e. apply (elem_of_update_dels c ns (Some m)).
  - intros e. rewrite (elem_of_update_mods c ns (Some m)). simpl.
    split; intros (Hns & Hm & Hc); (split; [done|split; [done|]]).
    + destruct (cached c ns !! name e) as [ov|]; [right|by left].
      exists ov. split; [done|]. congruence.
    + destruct Hc as [Hc|(ov & Hc & Hne)]; rewrite Hc; congruence.
  - intros k v Hc Hm. split.
    + intros Hin. apply list_elem_of_fmap in Hin as (e & -> & He).
      apply elem_of_update_dels in He as (_ & _ & Hn). simpl in Hn. congruence.
    + intros Hin. apply list_elem_of_fmap in Hin as (e & -> & He).
      apply elem_of_update_mods in He as (_ & Hm' & Hne). simpl in Hm'. congruence.
  - apply update_dels_NoDup.
  - apply update_mods_NoDup.
  - pose proof (update_cached c ns (Some m)) as H. unfold cached at 1 in H.
    assert (is_Some (data (update c ns (Some m)).1 !! ns)) as [x Hx].
    { unfold update. simpl. rewrite lookup_insert_eq. eauto. }
    rewrite Hx in H |- *. simpl in H. by subst.
Qed.

(** The example of the specification: cache [{a:1, b:2}], new map
    [{b:2, c:3}]. *)
Example update_a1b2_b2c3 :
  let c := set_data (NewWatcher "telepresence-agents" [])
             {[ "ns" := ({[ "a" := "1"; "b" := "2" ]} : strmap) ]} in
  let r := update c "ns" (Some {[ "b" := "2"; "c" := "3" ]}) in
  r.2 = Diff [Entry "a" "ns" "1"] [Entry "c" "ns" "3"]
  ∧ data r.1 !! "ns" = Some ({[ "b" := "2"; "c" := "3" ]} : strmap).
Proof. split; by vm_compute. Qed.

(** C3.  In one diff no key is both deleted and modified: the names of the
    delete-entries and the names of the modify-entries are disjoint, in the
    computed batches and hence in what is sent on the two channels. *)
Theorem update_dels_mods_disjoint (env : Env) (c : configWatcher) (ns : string)
    (m : option strmap) (done_del done_mod : option nat) :
  let d := (update c ns m).2 in
  let s := dispatch env done_del done_mod d in
  (list_to_set (name <$> dels d) : gset string) ## list_to_set (name <$> mods d)
  ∧ (list_to_set (name <$> on_delCh s) : gset string)
      ## list_to_set (name <$> on_modCh s).
Proof.
  cbn zeta.
  assert (Hdis : ∀ e1 e2, e1 ∈ dels (update c ns m).2 → e2 ∈ mods (update c ns m).2 →
                          name e1 ≠ name e2).
  { intros e1 e2 H1 H2 Heq.
    apply elem_of_update_dels in H1 as (_ & _ & Hn).
    apply elem_of_update_mods in H2 as (_ & Hm & _). congruence. }
  split.
  - intros k H1 H2. apply elem_of_list_to_set, list_elem_of_fmap in H1 as (e1 & -> & H1).
    apply elem_of_list_to_set, list_elem_of_fmap in H2 as (e2 & Heq & H2).
    by apply (Hdis e1 e2).
  - intros k H1 H2. apply elem_of_list_to_set, list_elem_of_fmap in H1 as (e1 & -> & H1).
    apply elem_of_list_to_set, list_elem_of_fmap in H2 as (e2 & Heq & H2).
    apply elem_of_writeToChan in H1 as [H1 _]. apply elem_of_writeToChan in H2 as [H2 _].
    by apply (Hdis e1 e2).
Qed.

(** C7.  Whatever batches are handed to the two channels and whenever the
    context is done, no entry named by the reserved injector key is sent on
    either channel. *)
Theorem reserved_key_never_sent (env : Env) (d : diff) (done_del done_mod : option nat) :
  let s := dispatch env done_del done_mod d in
  Forall (λ e, name e ≠ agent_InjectorKey env) (on_delCh s)
  ∧ Forall (λ e, name e ≠ agent_InjectorKey env) (on_modCh s).
Proof.
  cbn zeta. split; apply Forall_forall; intros e He;
    by apply elem_of_writeToChan in He as [_ ?].
Qed.

(** ** The event handler *)

Section eventHandler.
Variable env : Env.

Lemma update_nil_dels (c : configWatcher) (ns : string) (e : entry) :
  e ∈ dels (update c ns None).2
  ↔ namespace e = ns ∧ cached c ns !! name e = Some (value e).
Proof. rewrite elem_of_update_dels. simpl. tauto. Qed.

Lemma update_nil_mods (c : configWatcher) (ns : string) :
  mods (update c ns None).2 = [].
Proof. by rewrite update_mods. Qed.

Lemma update_nil_data (c : configWatcher) (ns : string) :
  data (update c ns None).1 !! ns = Some ∅.
Proof.
  pose proof (update_cached c ns None) as H. unfold cached at 1 in H.
  assert (is_Some (data (update c ns None).1 !! ns)) as [x Hx].
  { unfold update. simpl. rewrite lookup_insert_eq. eauto. }
  rewrite Hx in H |- *. simpl in H. by subst.
Qed.

Lemma on_event_Deleted (c : configWatcher) (m : ConfigMapObj) :
  on_event env c (mkEvent Deleted (ObjConfigMap m))
  = ((update c (Namespace_of m) None).1,
     [Infof "%s %s.%s" ["DELETED"; Name m; Namespace_of m]],
     Some (update c (Namespace_of m) None).2).
Proof. done. Qed.
End eventHandler.

(** C6, as the code has it.  On a [Deleted] event carrying a ConfigMap of
    namespace [ns], the batch handed to the delete channel holds exactly one
    delete-entry for every key cached for [ns], with its cached value, the
    modify batch is empty and the cache of [ns] is left empty; what is sent
    on the delete channel is that batch without the entry of the reserved
    injector key, whole when the context is never done and a prefix of it
    otherwise. *)
Theorem deleted_event_deletes_cached_keys (env : Env) (c : configWatcher)
    (m : ConfigMapObj) (done_del done_mod : option nat) :
  let ns := Namespace_of m in
  let r := on_event env c (mkEvent Deleted (ObjConfigMap m)) in
  ∃ d, r.2 = Some d
    ∧ (∀ e, e ∈ dels d ↔ namespace e = ns ∧ cached c ns !! name e = Some (value e))
    ∧ NoDup (name <$> dels d)
    ∧ mods d = []
    ∧ data r.1.1 !! ns = Some ∅
    ∧ on_delCh (dispatch env None done_mod d) = filter (not_reserved env) (dels d)
    ∧ on_delCh (dispatch env done_del done_mod d)
        `prefix_of` filter (not_reserved env) (dels d)
    ∧ on_modCh (dispatch env done_del done_mod d) = [].
Proof.
  cbn zeta. rewrite on_event_Deleted. eexists. split; [done|]. cbn [fst snd].
  split; [|split; [|split; [|split; [|split; [|split]]]]].
  - intros e. apply update_nil_dels.
  - apply update_dels_NoDup.
  - apply update_nil_mods.
  - apply update_nil_data.
  - unfold dispatch. cbn [on_delCh]. apply writeToChan_never_done.
  - unfold dispatch. cbn [on_delCh]. apply writeToChan_prefix.
  - unfold dispatch. cbn [on_modCh]. by rewrite update_nil_mods.
Qed.

(** C6, as stated, fails: with the injector settings cached, the deletion
    of the ConfigMap sends no delete-entry for the reserved key, even when
    the context is never done. *)
Lemma deleted_event_skips_reserved_key :
  let c := sample_watcher in
  let ev := mkEvent Deleted
              (ObjConfigMap (mkConfigMap "telepresence-agents" "ns" None)) in
  ¬ (∀ k v d, cached c "ns" !! k = Some v →
              (on_event sample_env c ev).2 = Some d →
              Entry k "ns" v ∈ on_delCh (dispatch sample_env None None d)).
Proof.
  cbn zeta. intros H.
  specialize (H "agentInjector" "namespaced: true" _ eq_refl eq_refl).
  apply elem_of_writeToChan in H as [_ H]. by apply H.
Qed.

(** C10, as the code has it.  A [Deleted] event carrying a ConfigMap, of
    whatever name, runs the diff against the nil map: the cache of its
    namespace is left empty, a delete-entry for every cached key is handed
    to the delete channel, and each of them but the one of the reserved
    injector key is sent when the context is never done.  An [Added] or
    [Modified] event whose ConfigMap is not named [agent.ConfigMap] is only
    logged: the cache is unchanged and no diff is computed. *)
Theorem name_filter_spares_deleted (env : Env) (c : configWatcher) (m : ConfigMapObj) :
  (let r := on_event env c (mkEvent Deleted (ObjConfigMap m)) in
   ∃ d, r.2 = Some d
     ∧ data r.1.1 !! Namespace_of m = Some ∅
     ∧ (∀ k v, cached c (Namespace_of m) !! k = Some v →
               Entry k (Namespace_of m) v ∈ dels d)
     ∧ (∀ k v, cached c (Namespace_of m) !! k = Some v →
               k ≠ agent_InjectorKey env →
               Entry k (Namespace_of m) v ∈ on_delCh (dispatch env None None d)))
  ∧ (Name m ≠ agent_ConfigMap env →
     ∀ t, t = Added ∨ t = Modified →
          let r := on_event env c (mkEvent t (ObjConfigMap m)) in
          r.1.1 = c ∧ r.2 = None).
Proof.
  split.
  - cbn zeta. rewrite on_event_Deleted. eexists. split; [done|]. cbn [fst snd].
    split; [apply update_nil_data|]. split.
    + intros k v Hc. by apply update_nil_dels.
    + intros k v Hc Hk. unfold dispatch. cbn [on_delCh].
      rewrite writeToChan_never_done. apply list_elem_of_filter.
      split; [done|]. by apply update_nil_dels.
  - intros Hname t [-> | ->]; cbn zeta; unfold on_event; cbn [Type_of Object_of];
      by rewrite bool_decide_true.
Qed.

Lemma name_filter_spares_deleted_witness :
  let m := mkConfigMap "another-configmap" "ns" (Some {[ "w2" := "create: true" ]}) in
  let r := on_event sample_env sample_watcher (mkEvent Added (ObjConfigMap m)) in
  r.1.1 = sample_watcher ∧ r.2 = None.
Proof.
  cbn zeta.
  refine (proj2 (name_filter_spares_deleted sample_env sample_watcher
                   (mkConfigMap "another-configmap" "ns" (Some {[ "w2" := "create: true" ]})))
            _ Added _).
  - simpl. discriminate.
  - by left.
Defined.

(** C10, as stated, fails: a [Deleted] event for a ConfigMap of another
    name clears the cache of the namespace, yet sends no delete-entry for
    the cached reserved key. *)
Lemma deleted_other_name_skips_reserved_key :
  let c := sample_watcher in
  let ev := mkEvent Deleted
              (ObjConfigMap (mkConfigMap "another-configmap" "ns" (Some ∅))) in
  data (on_event sample_env c ev).1.1 !! "ns" = Some ∅
  ∧ ¬ (∀ k v d, cached c "ns" !! k = Some v →
                (on_event sample_env c ev).2 = Some d →
                Entry k "ns" v ∈ on_delCh (dispatch sample_env None None d)).
Proof.
  cbn zeta. split.
  - rewrite on_event_Deleted. cbn [fst snd]. apply update_nil_data.
  - intros H.
    specialize (H "agentInjector" "namespaced: true" _ eq_refl eq_refl).
    apply elem_of_writeToChan in H as [_ H]. by apply H.
Qed.

(** ** The config store *)

Section Store.
Variable env : Env.

Lemma set_data_id (c : configWatcher) : set_data c (data c) = c.
Proof. by destruct c. Qed.

Lemma Store_locked_equal (c : configWatcher) (ns agentName yml : string) (b : bool) :
  data c !! ns ≫= (.!! agentName) = Some yml →
  Store_locked c ns agentName yml b = (true, c).
Proof.
  intros H. unfold Store_locked.
  destruct (data c !! ns) as [nm|] eqn:Hns; [|done]. simpl in H. rewrite H.
  rewrite bool_decide_true by done. rewrite andb_false_r.
  by rewrite insert_id, set_data_id.
Qed.

Lemma Store_locked_no_snapshot (c : configWatcher) (ns agentName yml ns' : string) :
  cached (Store_locked c ns agentName yml false).2 ns' = cached c ns'.
Proof.
  unfold Store_locked, cached.
  destruct (data c !! ns) as [nm|] eqn:Hns; simpl.
  - by rewrite insert_id.
  - destruct (decide (ns = ns')) as [<-|Hne].
    + by rewrite lookup_insert_eq, Hns.
    + by rewrite lookup_insert_ne.
Qed.

Lemma Store_locked_snapshot (c : configWatcher) (ns agentName yml : string) :
  cached (Store_locked c ns agentName yml true).2 ns !! agentName = Some yml.
Proof.
  unfold Store_locked, cached.
  destruct (data c !! ns) as [nm|] eqn:Hns; simpl.
  - destruct (nm !! agentName) as [old|] eqn:Hold; simpl.
    + case_bool_decide as Heq; simpl; rewrite lookup_insert_eq; simpl.
      * by subst.
      * by rewrite lookup_insert_eq.
    + rewrite lookup_insert_eq. simpl. by rewrite lookup_insert_eq.
  - rewrite lookup_insert_eq. simpl. by rewrite lookup_insert_eq.
Qed.

Lemma Store_no_snapshot_cached (c : configWatcher) (ac : Config) (ns' : string) :
  cached (Store env c ac false).1.1 ns' = cached c ns'.
Proof.
  unfold Store. destruct (yaml_encode env ac) as [err|yml]; [done|].
  pose proof (Store_locked_no_snapshot c (Namespace ac) (AgentName ac) yml ns') as H.
  destruct (Store_locked c (Namespace ac) (AgentName ac) yml false) as [eq c'].
  destruct (api_Get env (Namespace ac) (agent_ConfigMap env)) as [err|cm].
  - destruct (IsNotFound err); simpl; [|done]. by destruct eq.
  - by destruct eq.
Qed.

Lemma Store_no_patch (c : configWatcher) (ac : Config) (b : bool) :
  patches (Store env c ac b).1.2 = [].
Proof.
  unfold Store. destruct (yaml_encode env ac) as [err|yml]; [done|].
  destruct (Store_locked c (Namespace ac) (AgentName ac) yml b) as [eq c'].
  destruct (api_Get env (Namespace ac) (agent_ConfigMap env)) as [err|cm].
  - destruct (IsNotFound err); simpl; [|done]. by destruct eq.
  - by destruct eq.
Qed.
End Store.

(** C4, as the code has it.  When the serialized configuration equals the
    value cached for (namespace, agent name), [Store] reads the ConfigMap
    and returns without creating or updating it and with the cache
    unchanged; it returns no error unless that read fails with an error
    other than not-found, which it returns wrapped. *)
Theorem Store_unchanged_is_no_write (env : Env) (c : configWatcher) (ac : Config)
    (yml : string) (updateSnapshot : bool) :
  yaml_encode env ac = inr yml →
  data c !! Namespace ac ≫= (.!! AgentName ac) = Some yml →
  let r := Store env c ac updateSnapshot in
  r.1.1 = c
  ∧ r.1.2 = [CallGet (Namespace ac) (agent_ConfigMap env)]
  ∧ remote_writes r.1.2 = []
  ∧ r.2 = match api_Get env (Namespace ac) (agent_ConfigMap env) with
          | inl err =>
              if IsNotFound err then None
              else Some (ErrGetConfigMap (agent_ConfigMap env) err)
          | inr _ => None
          end.
Proof.
  intros Henc Hc. cbn zeta. unfold Store. rewrite Henc.
  rewrite (Store_locked_equal c _ _ _ _ Hc).
  destruct (api_Get env (Namespace ac) (agent_ConfigMap env)) as [err|cm]; [|done].
  by destruct (IsNotFound err).
Qed.

Lemma Store_unchanged_is_no_write_witness :
  let r := Store sample_env sample_watcher sample_generated true in
  r.1.1 = sample_watcher ∧ r.1.2 = [CallGet "ns" "telepresence-agents"]
  ∧ remote_writes r.1.2 = [] ∧ r.2 = None.
Proof.
  exact (Store_unchanged_is_no_write sample_env sample_watcher sample_generated
           "create: false" true eq_refl eq_refl).
Defined.

(** C4, as stated, fails: the configuration equals the cached value, the
    read of the ConfigMap is refused, and [Store] returns an error. *)
Lemma Store_unchanged_read_refused :
  let ac := sample_generated in
  yaml_encode sample_env_forbidden ac = inr "create: false"
  ∧ data sample_watcher !! Namespace ac ≫= (.!! AgentName ac) = Some "create: false"
  ∧ (Store sample_env_forbidden sample_watcher ac false).2
    = Some (ErrGetConfigMap "telepresence-agents" (ErrApi false "forbidden"))
  ∧ (Store sample_env_forbidden sample_watcher ac false).2 ≠ None.
Proof. cbn zeta. repeat split; by vm_compute. Qed.

(** ** The dispatch loop *)

Section Run.
Variable env : Env.

Lemma Run_FromDelCh (c : configWatcher) (e : entry) (rest : list selected) :
  Run env c (FromDelCh e :: rest)
  = let r1 := Run_del env c e in
    let r2 := Run env r1.1 rest in
    (r2.1.1, r1.2 ++ r2.1.2, r2.2).
Proof.
  simpl. destruct (Run_del env c e) as [c1 tr1]. simpl.
  by destruct (Run env c1 rest) as [[c2 tr2] r].
Qed.

Lemma Run_FromAddCh (c : configWatcher) (e : entry) (rest : list selected) :
  Run env c (FromAddCh e :: rest)
  = let r1 := Run_add env c e in
    let r2 := Run env r1.1 rest in
    (r2.1.1, r1.2 ++ r2.1.2, r2.2).
Proof.
  simpl. destruct (Run_add env c e) as [c1 tr1]. simpl.
  by destruct (Run env c1 rest) as [[c2 tr2] r].
Qed.

(** [Run] surfaces no error: it waits, or it has returned [nil]. *)
Lemma Run_returns_nil (c : configWatcher) (sel : list selected) :
  (Run env c sel).2 = None ∨ (Run env c sel).2 = Some None.
Proof.
  revert c. induction sel as [|s rest IH]; intros c; [by left|].
  destruct s as [|e|e].
  - by right.
  - rewrite Run_FromDelCh. apply IH.
  - rewrite Run_FromAddCh. apply IH.
Qed.

(** Cancellation ends the loop with [nil] once the entries selected
    before it are processed. *)
Lemma Run_until_done (c : configWatcher) (sel : list selected) :
  CtxDone ∈ sel → (Run env c sel).2 = Some None.
Proof.
  revert c. induction sel as [|s rest IH]; intros c Hin.
  - by apply elem_of_nil in Hin.
  - destruct s as [|e|e]; [done| |].
    + rewrite Run_FromDelCh. apply IH. by apply elem_of_cons in Hin as [?|?].
    + rewrite Run_FromAddCh. apply IH. by apply elem_of_cons in Hin as [?|?].
Qed.

Lemma workload_resolved (e : entry) (ac : Config) (wl : Workload) :
  yaml_decode env (value e) = inr ac →
  k8s_GetWorkload env (WorkloadName ac) (Namespace ac) (WorkloadKind ac) = inr wl →
  workload env e
  = ([CallGetWorkload (WorkloadName ac) (Namespace ac) (WorkloadKind ac)],
     inr (ac, wl)).
Proof. intros Hd Hw. unfold workload. by rewrite Hd, Hw. Qed.

Lemma patches_app (tr1 tr2 : list effect) :
  patches (tr1 ++ tr2) = patches tr1 ++ patches tr2.
Proof. apply List.filter_app. Qed.

Lemma triggerRollout_patches (wl : Workload) :
  patches (triggerRollout env wl) = [CallPatch wl].
Proof. unfold triggerRollout. by destruct (wl_Patch env wl). Qed.
End Run.

(** C5.  For a delete-entry whose value decodes and whose workload
    resolves, the dispatch loop leaves the watcher as it is and, when the
    configuration has [Create] set, issues no rollout patch; the one patch
    of the workload is issued when [Create] is false, and only then. *)
Theorem deleted_entry_rollout_unless_create (env : Env) (c : configWatcher)
    (e : entry) (ac : Config) (wl : Workload) :
  yaml_decode env (value e) = inr ac →
  k8s_GetWorkload env (WorkloadName ac) (Namespace ac) (WorkloadKind ac) = inr wl →
  let r := Run_del env c e in
  r.1 = c
  ∧ (Create ac = true → patches r.2 = [])
  ∧ (Create ac = false → patches r.2 = [CallPatch wl])
  ∧ (patches r.2 ≠ [] → Create ac = false)
  ∧ (∀ rest, Run env c (FromDelCh e :: rest)
             = (let r2 := Run env c rest in (r2.1.1, r.2 ++ r2.1.2, r2.2))).
Proof.
  intros Hd Hw. cbn zeta.
  assert (Hr : Run_del env c e
               = (c, Infof "del %s.%s: %s" [name e; namespace e; value e]
                     :: [CallGetWorkload (WorkloadName ac) (Namespace ac) (WorkloadKind ac)]
                     ++ (if Create ac then [] else triggerRollout env wl))).
  { unfold Run_del. rewrite (workload_resolved env e ac wl Hd Hw).
    destruct (Create ac); [|done]. by rewrite app_nil_r. }
  split; [by rewrite Hr|]. split; [|split; [|split]].
  - intros Hc. rewrite Hr, Hc. done.
  - intros Hc. rewrite Hr, Hc. cbn [snd].
    change (patches (triggerRollout env wl) = [CallPatch wl]).
    apply triggerRollout_patches.
  - intros Hp. destruct (Create ac) eqn:Hc; [|done].
    exfalso. apply Hp. by rewrite Hr.
  - intros rest. rewrite Run_FromDelCh. cbn zeta. by rewrite Hr.
Qed.

Lemma deleted_entry_rollout_unless_create_witness :
  patches (Run_del sample_env sample_watcher (Entry "w1" "ns" "create: true")).2 = [].
Proof.
  refine (proj1 (proj2 (deleted_entry_rollout_unless_create sample_env sample_watcher
                          (Entry "w1" "ns" "create: true") sample_create sample_wl
                          eq_refl eq_refl)) eq_refl).
Defined.

(** C1, as the code has it.  For a modify-entry whose value decodes to a
    configuration with [Create] set and whose workload resolves, the
    dispatch loop calls the generator with the workload and its pod
    template and, when the generator succeeds, calls [Store] on the
    generated configuration with the snapshot flag false, so that the cached
    maps keep their content; it issues no rollout patch for the entry, and
    logs the error of the generator or of the store when there is one.
    The write is therefore not hidden from the watcher: a later ConfigMap
    event that holds the serialized generated configuration under the key
    of its agent yields a modify-entry for that key whenever the serialized
    form is not the value cached for it. *)
Theorem added_create_entry_generates_and_stores (env : Env) (c : configWatcher)
    (e : entry) (ac : Config) (wl : Workload) :
  yaml_decode env (value e) = inr ac →
  k8s_GetWorkload env (WorkloadName ac) (Namespace ac) (WorkloadKind ac) = inr wl →
  Create ac = true →
  let r := Run_add env c e in
  let line := Infof "add %s.%s: %s" [name e; namespace e; value e] in
  let call := CallGetWorkload (WorkloadName ac) (Namespace ac) (WorkloadKind ac) in
  let gen := CallGenerate wl (GetPodTemplate wl) in
  patches r.2 = []
  ∧ (∀ ns, cached r.1 ns = cached c ns)
  ∧ match Generate env wl (GetPodTemplate wl) with
    | inl err => r = (c, [line; call; gen; LogError err])
    | inr ac' =>
        let s := Store env c ac' false in
        r = (s.1.1,
             [line; call; gen] ++ s.1.2
             ++ match s.2 with Some err => [LogError err] | None => [] end)
    end
  ∧ (∀ ac' yml m,
       Generate env wl (GetPodTemplate wl) = inr ac' →
       yaml_encode env ac' = inr yml →
       cached c (Namespace ac') !! AgentName ac' ≠ Some yml →
       m !! AgentName ac' = Some yml →
       Entry (AgentName ac') (Namespace ac') yml
         ∈ mods (update r.1 (Namespace ac') (Some m)).2).
Proof.
  intros Hd Hw Hc. cbn zeta.
  assert (Hcached : ∀ ns, cached (Run_add env c e).1 ns = cached c ns).
  { intros ns. unfold Run_add. rewrite (workload_resolved env e ac wl Hd Hw), Hc.
    destruct (Generate env wl (GetPodTemplate wl)) as [err|ac']; [done|].
    pose proof (Store_no_snapshot_cached env c ac' ns) as Hs.
    by destruct (Store env c ac' false) as [[c' tr'] res]. }
  split; [|split; [done|split]].
  - unfold Run_add. rewrite (workload_resolved env e ac wl Hd Hw), Hc.
    destruct (Generate env wl (GetPodTemplate wl)) as [err|ac']; [done|].
    pose proof (Store_no_patch env c ac' false) as Hp.
    destruct (Store env c ac' false) as [[c' tr'] res]. cbn [fst snd] in *.
    change (patches (tr' ++ match res with Some err => [LogError err] | None => [] end) = []).
    rewrite patches_app, Hp. by destruct res.
  - unfold Run_add. rewrite (workload_resolved env e ac wl Hd Hw), Hc.
    destruct (Generate env wl (GetPodTemplate wl)) as [err|ac']; [done|].
    by destruct (Store env c ac' false) as [[c' tr'] res].
  - intros ac' yml m _ _ Hne Hm. apply elem_of_update_mods. cbn [name namespace value].
    split; [done|]. split; [done|]. by rewrite Hcached.
Qed.

Lemma added_create_entry_generates_and_stores_witness :
  let r := Run_add sample_env sample_watcher_pending (Entry "w1" "ns" "create: true") in
  patches r.2 = []
  ∧ remote_writes r.2
    = [CallUpdate "ns" (mkConfigMap "telepresence-agents" "ns"
                          (Some {[ "w1" := "create: false" ]}))]
  ∧ Entry "w1" "ns" "create: false"
      ∈ mods (update r.1 "ns" (Some {[ "w1" := "create: false" ]})).2.
Proof.
  cbn zeta.
  destruct (added_create_entry_generates_and_stores sample_env sample_watcher_pending
              (Entry "w1" "ns" "create: true") sample_create sample_wl
              eq_refl eq_refl eq_refl) as (Hp & _ & _ & Hlater).
  split; [exact Hp|]. split; [by vm_compute|].
  refine (Hlater sample_generated "create: false" {[ "w1" := "create: false" ]}
            eq_refl eq_refl _ eq_refl).
  by vm_compute.
Defined.

(** C1, as stated, fails.  The ConfigMap of [ns] is added with key [w1] and
    a configuration with [Create] set.  The dispatch loop stores the
    generated configuration with the snapshot flag false: the watcher is not
    the one [Store] with the flag true leaves, the cache still holds the
    old value, and the [Modified] event that the write causes yields a
    modify-entry for [w1] whose processing patches the workload. *)
Lemma added_create_entry_store_without_snapshot :
  let c := (update (NewWatcher "telepresence-agents" []) "ns"
              (Some {[ "w1" := "create: true" ]})).1 in
  let r := Run_add sample_env c (Entry "w1" "ns" "create: true") in
  let written := mkConfigMap "telepresence-agents" "ns" (Some {[ "w1" := "create: false" ]}) in
  let r' := on_event sample_env r.1 (mkEvent Modified (ObjConfigMap written)) in
  r.1 ≠ (Store sample_env c sample_generated true).1.1
  ∧ cached r.1 "ns" !! "w1" = Some "create: true"
  ∧ CallUpdate "ns" written ∈ r.2
  ∧ r'.2 = Some (Diff [] [Entry "w1" "ns" "create: false"])
  ∧ patches (Run_add sample_env r'.1.1 (Entry "w1" "ns" "create: false")).2
    = [CallPatch sample_wl].
Proof.
  cbn zeta. split; [|split; [|split; [|split]]].
  - intros H. apply (f_equal (λ c, cached c "ns" !! "w1")) in H.
    vm_compute in H. discriminate H.
  - by vm_compute.
  - vm_compute. do 5 right. by left.
  - by vm_compute.
  - by vm_compute.
Qed.

(** C8.  For an entry, deleted or modified, whose value does not decode or
    whose workload does not resolve, the dispatch loop logs the error and
    nothing else happens for it: the watcher is unchanged and the trace
    holds no rollout patch, no call of the generator and no call of the
    store; the loop then goes on with the entries that follow and never
    returns an error. *)
Theorem failed_entry_is_dropped (env : Env) (c : configWatcher) (e : entry) :
  ((∃ err, yaml_decode env (value e) = inl err)
   ∨ (∃ ac err, yaml_decode env (value e) = inr ac
        ∧ k8s_GetWorkload env (WorkloadName ac) (Namespace ac) (WorkloadKind ac)
          = inl err)) →
  ∃ tr err,
    Run_del env c e
    = (c, Infof "del %s.%s: %s" [name e; namespace e; value e] :: tr ++ [LogError err])
    ∧ Run_add env c e
      = (c, Infof "add %s.%s: %s" [name e; namespace e; value e] :: tr ++ [LogError err])
    ∧ Forall (λ x, is_patch x = false ∧ is_generate x = false ∧ is_store_call x = false)
        (tr ++ [LogError err])
    ∧ (∀ rest,
         Run env c (FromDelCh e :: rest)
         = (let r := Run env c rest in
            (r.1.1,
             (Infof "del %s.%s: %s" [name e; namespace e; value e] :: tr ++ [LogError err])
             ++ r.1.2, r.2))
         ∧ Run env c (FromAddCh e :: rest)
           = (let r := Run env c rest in
              (r.1.1,
               (Infof "add %s.%s: %s" [name e; namespace e; value e] :: tr ++ [LogError err])
               ++ r.1.2, r.2))
         ∧ ((Run env c (FromDelCh e :: rest)).2 = None
            ∨ (Run env c (FromDelCh e :: rest)).2 = Some None)
         ∧ ((Run env c (FromAddCh e :: rest)).2 = None
            ∨ (Run env c (FromAddCh e :: rest)).2 = Some None)).
Proof.
  intros H.
  assert (∃ tr err, workload env e = (tr, inl err)
                    ∧ Forall (λ x, is_patch x = false ∧ is_generate x = false
                                   ∧ is_store_call x = false) tr)
    as (tr & err & Hw & Htr).
  { unfold workload. destruct H as [[err Hd]|(ac & err & Hd & Hg)]; rewrite Hd.
    - eexists [], _. split; [done|]. constructor.
    - rewrite Hg. eexists [_], _. split; [done|]. by repeat constructor. }
  assert (Hdel : Run_del env c e
                 = (c, Infof "del %s.%s: %s" [name e; namespace e; value e]
                       :: tr ++ [LogError err])).
  { unfold Run_del. by rewrite Hw. }
  assert (Hadd : Run_add env c e
                 = (c, Infof "add %s.%s: %s" [name e; namespace e; value e]
                       :: tr ++ [LogError err])).
  { unfold Run_add. by rewrite Hw. }
  exists tr, err. split; [done|]. split; [done|]. split.
  - apply Forall_app. split; [done|]. by repeat constructor.
  - intros rest. split; [|split; [|split]].
    + rewrite Run_FromDelCh. cbn zeta. by rewrite Hdel.
    + rewrite Run_FromAddCh. cbn zeta. by rewrite Hadd.
    + apply Run_returns_nil.
    + apply Run_returns_nil.
Qed.

Lemma failed_entry_is_dropped_witness :
  ∃ tr err,
    Run_del sample_env sample_watcher (Entry "w1" "ns" "not yaml")
    = (sample_watcher, Infof "del %s.%s: %s" ["w1"; "ns"; "not yaml"] :: tr ++ [LogError err]).
Proof.
  destruct (failed_entry_is_dropped sample_env sample_watcher (Entry "w1" "ns" "not yaml"))
    as (tr & err & H & _).
  - left. by eexists.
  - by exists tr, err.
Defined.

(** ** Properties of the observable map *)

Section watchable_props.
Context {V : Type} `{EqDecision V}.
Implicit Types (m : watchable.Map V) (s : watchable.subscription V)
  (w : watchable.write V) (first : gmap string V).

Lemma snapshot_all first : watchable.snapshot None first = first.
Proof.
  unfold watchable.snapshot. by apply map_filter_id.
Qed.

Lemma touch_all (k : string) (old new : option V) s :
  watchable.include s = None → watchable.live s = true →
  is_Some old ∨ is_Some new →
  watchable.touch k old new s
  = {| watchable.include := None; watchable.dirty := true;
       watchable.chan := watchable.chan s; watchable.live := true |}.
Proof.
  intros Hi Hl Hs. unfold watchable.touch. rewrite Hi, Hl.
  destruct Hs as [[x ->]|[x ->]]; simpl; [done|]. by rewrite orb_true_r.
Qed.

Lemma holds_first_Store first i m (k : string) (v : V) :
  holds_first first i m → holds_first first i (watchable.Store k v m).
Proof.
  intros (s & Hs & Hi & Hl & Hc & Hd). unfold watchable.Store.
  destruct (watchable.closed m); [by exists s|].
  destruct (decide (watchable.content m !! k = Some v)); [by exists s|].
  eexists. simpl. rewrite list_lookup_fmap, Hs. simpl.
  rewrite touch_all by eauto. split; [done|]. by rewrite Hc.
Qed.

Lemma holds_first_Delete first i m (k : string) :
  holds_first first i m → holds_first first i (watchable.Delete k m).
Proof.
  intros (s & Hs & Hi & Hl & Hc & Hd). unfold watchable.Delete.
  destruct (watchable.closed m); [by exists s|].
  destruct (watchable.content m !! k) as [old|] eqn:Hk; [|by exists s].
  eexists. simpl. rewrite list_lookup_fmap, Hs. simpl.
  rewrite touch_all by eauto. split; [done|]. by rewrite Hc.
Qed.

Lemma holds_first_writes first i m (ws : list (watchable.write V)) :
  holds_first first i m → holds_first first i (watchable.apply_writes m ws).
Proof.
  revert m. induction ws as [|w ws IH]; intros m Hm; [done|].
  simpl. apply IH. destruct w as [k v|k|k|k v]; simpl.
  - by apply holds_first_Store.
  - by apply holds_first_Delete.
  - by apply holds_first_Delete.
  - unfold watchable.LoadOrStore.
    destruct (watchable.content m !! k); [done|]. by apply holds_first_Store.
Qed.

Lemma holds_first_Subscribe m :
  watchable.closed m = false →
  holds_first (watchable.LoadAll m) (watchable.Subscribe m).2 (watchable.Subscribe m).1.
Proof.
  intros Hopen. unfold watchable.Subscribe, watchable.SubscribeSubset. rewrite Hopen.
  eexists. simpl. split; [apply list_lookup_middle; done|]. simpl.
  by rewrite snapshot_all.
Qed.

Lemma holds_first_recv first i m :
  holds_first first i m →
  (watchable.recv i m).1 = watchable.Snapshot first
  ∧ watchable.content (watchable.recv i m).2 = watchable.content m
  ∧ ((watchable.recv i (watchable.recv i m).2).1 = watchable.WouldBlock
     ∧ watchable.content m = first
     ∨ (watchable.recv i (watchable.recv i m).2).1
       = watchable.Snapshot (watchable.content m)).
Proof.
  intros (s & Hs & Hi & Hl & Hc & Hd).
  assert (Hlen : i < length (watchable.subs m)) by (by eapply lookup_lt_Some).
  assert (Hrecv : watchable.recv i m
            = (watchable.Snapshot first,
               {| watchable.content := watchable.content m;
                  watchable.subs :=
                    <[i := {| watchable.include := watchable.include s;
                              watchable.dirty := watchable.dirty s;
                              watchable.chan := None;
                              watchable.live := true |}]> (watchable.subs m);
                  watchable.closed := watchable.closed m |})).
  { unfold watchable.recv. by rewrite Hs, Hl, Hc. }
  rewrite Hrecv. cbn [fst snd watchable.content].
  split; [done|]. split; [done|].
  unfold watchable.recv. cbn [watchable.subs watchable.content].
  rewrite list_lookup_insert_eq by done.
  cbn [watchable.live watchable.chan watchable.dirty watchable.include negb].
  destruct (watchable.dirty s) eqn:Hdirty.
  - right. cbn [fst]. by rewrite Hi, snapshot_all.
  - left. cbn [fst]. split; [done|]. by apply Hd.
Qed.
Lemma apply_writes_closed m (ws : list (watchable.write V)) :
  watchable.closed m = true → watchable.apply_writes m ws = m.
Proof.
  intros Hclosed. induction ws as [|w ws IH]; [done|].
  cbn [watchable.apply_writes foldl].
  assert (Hw : watchable.apply_write m w = m).
  { destruct w as [k v|k|k|k v]; cbn [watchable.apply_write].
    - unfold watchable.Store. by rewrite Hclosed.
    - unfold watchable.Delete. by rewrite Hclosed.
    - unfold watchable.LoadAndDelete, watchable.Delete. by rewrite Hclosed.
    - unfold watchable.LoadOrStore, watchable.Store. rewrite Hclosed.
      by destruct (watchable.content m !! k). }
  rewrite Hw. apply IH.
Qed.

Lemma recv_Subscribe_closed m :
  watchable.closed m = true →
  watchable.recv (watchable.Subscribe m).2 (watchable.Subscribe m).1
  = (watchable.EndOfStream, (watchable.Subscribe m).1).
Proof.
  intros Hclosed. unfold watchable.Subscribe, watchable.SubscribeSubset.
  rewrite Hclosed. cbn [fst snd]. unfold watchable.recv. cbn [watchable.subs].
  by rewrite list_lookup_middle.
Qed.
End watchable_props.

(** C9, for an open map and for a closed one.  A fresh [Subscribe] on a
    map that is not closed enqueues exactly one snapshot, the full content
    of the map at that moment, and the first read of the channel gives it
    whatever writes have been made since; a snapshot with those writes comes
    only with the next read, which waits when they left the content as it
    was.  On a closed map the channel of a fresh subscription is closed
    from the start: every read of it, before or after any attempted write,
    gives end of stream and no snapshot. *)
Theorem Subscribe_first_snapshot {V : Type} `{EqDecision V}
    (m : watchable.Map V) (ws : list (watchable.write V)) :
  let m1 := (watchable.Subscribe m).1 in
  let i := (watchable.Subscribe m).2 in
  let m2 := watchable.apply_writes m1 ws in
  let m3 := (watchable.recv i m2).2 in
  (watchable.closed m = false →
   watchable.LoadAll m1 = watchable.LoadAll m
   ∧ watchable.chan <$> watchable.subs m1 !! i = Some (Some (watchable.LoadAll m))
   ∧ (watchable.recv i m1).1 = watchable.Snapshot (watchable.LoadAll m)
   ∧ (watchable.recv i (watchable.recv i m1).2).1 = watchable.WouldBlock
   ∧ (watchable.recv i m2).1 = watchable.Snapshot (watchable.LoadAll m)
   ∧ ((watchable.recv i m3).1 = watchable.WouldBlock
      ∧ watchable.LoadAll m2 = watchable.LoadAll m
      ∨ (watchable.recv i m3).1 = watchable.Snapshot (watchable.LoadAll m2)))
  ∧ (watchable.closed m = true →
     (watchable.recv i m1).1 = watchable.EndOfStream
     ∧ (watchable.recv i m2).1 = watchable.EndOfStream
     ∧ (watchable.recv i m3).1 = watchable.EndOfStream
     ∧ (∀ snap, (watchable.recv i m2).1 ≠ watchable.Snapshot snap)
     ∧ watchable.LoadAll m2 = watchable.LoadAll m).
Proof.
  cbn zeta. split.
  - intros Hopen.
    pose proof (holds_first_Subscribe m Hopen) as H0.
    pose proof (holds_first_writes _ _ _ ws H0) as H1.
    destruct (holds_first_recv _ _ _ H1) as (Hr1 & _ & Hr2).
    split; [done|]. split; [|split; [|split; [|split; [done|done]]]].
    + destruct H0 as (s & Hs & _ & _ & Hc & _). by rewrite Hs, <- Hc.
    + by destruct (holds_first_recv _ _ _ H0) as (? & _).
    + destruct (holds_first_recv _ _ _ H0) as (_ & _ & [[Hb _]|Hsnap]); [done|].
      exfalso. revert Hsnap.
      unfold watchable.Subscribe, watchable.SubscribeSubset. rewrite Hopen.
      cbn [fst snd]. unfold watchable.recv at 2. cbn [watchable.subs].
      rewrite list_lookup_middle by done.
      cbn [watchable.live watchable.chan watchable.dirty watchable.include negb snd].
      unfold watchable.recv. cbn [watchable.subs].
      rewrite list_lookup_insert_eq by (rewrite length_app; simpl; lia).
      cbn [watchable.live watchable.chan watchable.dirty watchable.include negb fst].
      discriminate.
  - intros Hclosed.
    assert (Hc1 : watchable.closed (watchable.Subscribe m).1 = true) by done.
    rewrite (apply_writes_closed _ ws Hc1).
    rewrite !(recv_Subscribe_closed m Hclosed). cbn [fst snd].
    rewrite (recv_Subscribe_closed m Hclosed). by repeat split.
Qed.

Lemma Subscribe_first_snapshot_witness :
  (watchable.recv (watchable.Subscribe abc).2
     (watchable.apply_writes (watchable.Subscribe abc).1
        [watchable.WStore "d" "D"; watchable.WDelete "a"])).1
  = watchable.Snapshot (watchable.LoadAll abc)
  ∧ (watchable.recv (watchable.Subscribe (watchable.Close abc)).2
       (watchable.apply_writes (watchable.Subscribe (watchable.Close abc)).1
          [watchable.WStore "d" "D"; watchable.WDelete "a"])).1
    = watchable.EndOfStream.
Proof.
  split.
  - refine (proj1 (proj2 (proj2 (proj2 (proj2
              (proj1 (Subscribe_first_snapshot abc
                        [watchable.WStore "d" "D"; watchable.WDelete "a"]) eq_refl)))))).
  - refine (proj1 (proj2
              (proj2 (Subscribe_first_snapshot (watchable.Close abc)
                        [watchable.WStore "d" "D"; watchable.WDelete "a"]) eq_refl))).
Defined.

(** C9, as stated for every state, fails on a closed map: the channel of a
    fresh subscription is closed from the start and gives no snapshot, as
    the end of [TestMAPTYPE_SubscribeSubset] checks. *)
Lemma Subscribe_closed_no_snapshot :
  let m := watchable.Close abc in
  watchable.LoadAll m = {[ "a" := "A"; "b" := "B"; "c" := "C" ]}
  ∧ (watchable.recv (watchable.Subscribe m).2 (watchable.Subscribe m).1).1
    = watchable.EndOfStream
  ∧ (watchable.recv (watchable.Subscribe m).2 (watchable.Subscribe m).1).1
    ≠ watchable.Snapshot (watchable.LoadAll m).
Proof. cbn zeta. split; [by vm_compute|]. split; [by vm_compute|]. by vm_compute. Qed.

(** [TestMAPTYPE_Subscribe], replayed on the model: the reads give the
    snapshots that the test asserts. *)
Example TestMAPTYPE_Subscribe :
  let m := (watchable.Subscribe abc).1 in
  let ch := (watchable.Subscribe abc).2 in
  let r1 := watchable.recv ch m in
  let r2 := watchable.recv ch
              (watchable.apply_writes r1.2
                 [watchable.WStore "d" "D"; watchable.WStore "e" "E";
                  watchable.WStore "f" "F"]) in
  let r3 := watchable.recv ch (watchable.Delete "a" r2.2) in
  let r4 := watchable.recv ch (watchable.LoadAndDelete "b" r3.2).2 in
  let r5 := watchable.recv ch
              (watchable.Delete "c" (watchable.Store "c" "c" r4.2)) in
  let r6 := watchable.recv ch
              (watchable.cancel ch
                 (watchable.apply_writes r5.2
                    [watchable.WStore "g" "G"; watchable.WStore "h" "H";
                     watchable.WStore "i" "I"])) in
  r1.1 = watchable.Snapshot {[ "a" := "A"; "b" := "B"; "c" := "C" ]}
  ∧ r2.1 = watchable.Snapshot
             {[ "a" := "A"; "b" := "B"; "c" := "C"; "d" := "D"; "e" := "E"; "f" := "F" ]}
  ∧ r3.1 = watchable.Snapshot
             {[ "b" := "B"; "c" := "C"; "d" := "D"; "e" := "E"; "f" := "F" ]}
  ∧ r4.1 = watchable.Snapshot {[ "c" := "C"; "d" := "D"; "e" := "E"; "f" := "F" ]}
  ∧ r5.1 = watchable.Snapshot {[ "d" := "D"; "e" := "E"; "f" := "F" ]}
  ∧ r6.1 = watchable.EndOfStream
  ∧ (watchable.recv ch r6.2).1 = watchable.EndOfStream.
Proof. cbn zeta. repeat split; by vm_compute. Qed.

(** [TestMAPTYPE_SubscribeSubset], replayed on the model. *)
Example TestMAPTYPE_SubscribeSubset :
  let keep := Some (λ (_ : string) (v : string), bool_decide (v ≠ "ignoreme")) in
  let m := (watchable.SubscribeSubset keep abc).1 in
  let ch := (watchable.SubscribeSubset keep abc).2 in
  let r1 := watchable.recv ch m in
  let r2 := watchable.recv ch (watchable.Store "a" "A" r1.2) in
  let r3 := watchable.recv ch (watchable.Store "a" "a" r2.2) in
  let r4 := watchable.recv ch (watchable.Store "a" "ignoreme" r3.2) in
  let r5 := watchable.recv ch (watchable.Close r4.2) in
  let again := watchable.SubscribeSubset keep r5.2 in
  r1.1 = watchable.Snapshot {[ "a" := "A"; "b" := "B"; "c" := "C" ]}
  ∧ r2.1 = watchable.WouldBlock
  ∧ r3.1 = watchable.Snapshot {[ "a" := "a"; "b" := "B"; "c" := "C" ]}
  ∧ r4.1 = watchable.Snapshot {[ "b" := "B"; "c" := "C" ]}
  ∧ r5.1 = watchable.EndOfStream
  ∧ (watchable.recv again.2 again.1).1 = watchable.EndOfStream.
Proof. cbn zeta. repeat split; by vm_compute. Qed.

(** ** End to end, on the sample cluster *)

(** The ConfigMap is added with a configuration to be created for [w1]:
    the generator runs, the generated configuration is written to the
    ConfigMap, and no patch is issued. *)
Example added_create_end_to_end :
  let ev := mkEvent Added
              (ObjConfigMap (mkConfigMap "telepresence-agents" "ns"
                               (Some {[ "w1" := "create: true" ]}))) in
  let r := on_event sample_env (NewWatcher "telepresence-agents" []) ev in
  let s := dispatch sample_env None None (default (Diff [] []) r.2) in
  let run := Run sample_env r.1.1 (feed s ++ [CtxDone]) in
  s = Sent [] [Entry "w1" "ns" "create: true"]
  ∧ CallGenerate sample_wl "containers: [app]" ∈ run.1.2
  ∧ remote_writes run.1.2
    = [CallUpdate "ns" (mkConfigMap "telepresence-agents" "ns"
                          (Some {[ "w1" := "create: false" ]}))]
  ∧ patches run.1.2 = []
  ∧ run.2 = Some None.
Proof.
  cbn zeta. split; [by vm_compute|]. split; [|by vm_compute].
  vm_compute. do 2 right. by left.
Qed.

(** The ConfigMap is deleted while it holds a configuration still to be
    created: no patch is issued. *)
Example deleted_create_end_to_end :
  let c := (update (NewWatcher "telepresence-agents" []) "ns"
              (Some {[ "w1" := "create: true" ]})).1 in
  let ev := mkEvent Deleted
              (ObjConfigMap (mkConfigMap "telepresence-agents" "ns" None)) in
  let r := on_event sample_env c ev in
  let s := dispatch sample_env None None (default (Diff [] []) r.2) in
  let run := Run sample_env r.1.1 (feed s ++ [CtxDone]) in
  s = Sent [Entry "w1" "ns" "create: true"] []
  ∧ patches run.1.2 = []
  ∧ run.2 = Some None.
Proof. cbn zeta. repeat split; by vm_compute. Qed.

(** The ConfigMap is modified to hold a generated configuration: exactly
    one patch of the workload is issued. *)
Example modified_generated_end_to_end :
  let c := (update (NewWatcher "telepresence-agents" []) "ns"
              (Some {[ "w1" := "create: true" ]})).1 in
  let ev := mkEvent Modified
              (ObjConfigMap (mkConfigMap "telepresence-agents" "ns"
                               (Some {[ "w1" := "create: false" ]}))) in
  let r := on_event sample_env c ev in
  let s := dispatch sample_env None None (default (Diff [] []) r.2) in
  let run := Run sample_env r.1.1 (feed s ++ [CtxDone]) in
  s = Sent [] [Entry "w1" "ns" "create: false"]
  ∧ patches run.1.2 = [CallPatch sample_wl]
  ∧ run.2 = Some None.
Proof. cbn zeta. repeat split; by vm_compute. Qed.

(** * Further properties of the watcher *)

(** ** The diff step, continued *)

Lemma filter_none {A} (P : A → Prop) `{∀ x, Decision (P x)} (l : list A) :
  (∀ x, x ∈ l → ¬ P x) → filter P l = [].
Proof.
  induction l as [|a l IH]; intros Hl; [done|].
  rewrite filter_cons, decide_False by (apply Hl; apply elem_of_cons; by left).
  apply IH. intros x Hx. apply Hl. apply elem_of_cons. by right.
Qed.

Lemma set_data_set_data (c : configWatcher) (d1 d2 : gmap string strmap) :
  set_data (set_data c d1) d2 = set_data c d2.
Proof. done. Qed.

Lemma cached_set_data_insert (c : configWatcher) (d : gmap string strmap)
    (ns : string) (x : strmap) :
  cached (set_data c (<[ns := x]> d)) ns = x.
Proof. unfold cached. simpl. by rewrite lookup_insert_eq. Qed.

Lemma update_state (c : configWatcher) (ns : string) (m : option strmap) :
  (update c ns m).1 = set_data c (<[ns := default ∅ m]> (data c)).
Proof.
  pose proof (update_cached c ns m) as H.
  unfold update in H |- *. cbn [fst] in H |- *.
  rewrite cached_set_data_insert in H. by rewrite H.
Qed.

Lemma update_diff_cached (c c' : configWatcher) (ns : string) (m : option strmap) :
  cached c ns = cached c' ns → (update c ns m).2 = (update c' ns m).2.
Proof. intros H. unfold update. cbn [snd]. by rewrite H. Qed.

Lemma update_nothing_to_do (c : configWatcher) (ns : string) (m : option strmap) :
  cached c ns = default ∅ m → (update c ns m).2 = Diff [] [].
Proof.
  intros Hc.
  assert (Hd : dels (update c ns m).2 = []).
  { rewrite update_dels. rewrite filter_none; [done|].
    intros [k v] Hin. simpl. apply elem_of_map_to_list in Hin.
    rewrite Hc in Hin. destruct m as [m|]; simpl in *; [by rewrite Hin|].
    by rewrite lookup_empty in Hin. }
  assert (Hm : mods (update c ns m).2 = []).
  { rewrite update_mods. rewrite filter_none; [done|].
    intros [k v] Hin. simpl. apply go_range_lookup in Hin. rewrite Hc.
    destruct m as [m|]; simpl in *; [|done]. by intros []. }
  destruct (update c ns m).2 as [ds ms]. simpl in *. by subst.
Qed.

(** X1.  Replaying a map is silent: once [update] has run for a namespace
    with a map (nil or not), a second run with the same map, as a restarted
    watch causes, computes an empty diff and leaves the watcher as it
    is. *)
Theorem update_replay_is_silent (c : configWatcher) (ns : string) (m : option strmap) :
  let c1 := (update c ns m).1 in
  update c1 ns m = (c1, Diff [] []).
Proof.
  cbn zeta. apply injective_projections; cbn [fst snd].
  - rewrite (update_state (update c ns m).1), (update_state c).
    rewrite set_data_set_data. cbn [data set_data]. by rewrite insert_insert_eq.
  - apply update_nothing_to_do. apply update_cached.
Qed.

Lemma foldl_delete_lookup (l : list entry) (old : strmap) (k : string) :
  foldl (λ acc e, delete (name e) acc) old l !! k
  = if decide (k ∈ name <$> l) then None else old !! k.
Proof.
  revert old. induction l as [|e l IH]; intros old.
  - cbn [foldl fmap list_fmap]. rewrite decide_False; [done|]. apply not_elem_of_nil.
  - cbn [foldl]. rewrite IH, fmap_cons.
    destruct (decide (k = name e)) as [->|Hne].
    + rewrite lookup_delete_eq. rewrite (decide_True (P := name e ∈ name e :: _));
        [by destruct (decide _)|]. apply elem_of_cons. by left.
    + rewrite lookup_delete_ne by done. apply decide_ext.
      rewrite elem_of_cons. split; [by right|by intros [?|?]].
Qed.

Lemma foldl_insert_lookup_notin (l : list entry) (base : strmap) (k : string) :
  k ∉ name <$> l →
  foldl (λ acc e, <[name e := value e]> acc) base l !! k = base !! k.
Proof.
  revert base. induction l as [|e l IH]; intros base Hk; [done|].
  cbn [foldl]. rewrite fmap_cons in Hk. apply not_elem_of_cons in Hk as [Hne Hk].
  rewrite IH by done. by rewrite lookup_insert_ne.
Qed.

Lemma foldl_insert_lookup_in (l : list entry) (base : strmap) (e : entry) :
  NoDup (name <$> l) → e ∈ l →
  foldl (λ acc x, <[name x := value x]> acc) base l !! name e = Some (value e).
Proof.
  revert base. induction l as [|a l IH]; intros base Hnd Hin.
  - by apply elem_of_nil in Hin.
  - cbn [foldl]. rewrite fmap_cons in Hnd. apply NoDup_cons in Hnd as [Ha Hnd].
    apply elem_of_cons in Hin as [->|Hin].
    + rewrite foldl_insert_lookup_notin by done. by rewrite lookup_insert_eq.
    + by apply IH.
Qed.

(** X2.  The diff accounts for the whole change: removing the keys of the
    delete-entries from the cached map and then setting the keys of the
    modify-entries to their values gives the new map (the empty map when the
    new map is nil). *)
Theorem update_diff_rebuilds_map (c : configWatcher) (ns : string) (m : option strmap) :
  apply_diff (update c ns m).2 (cached c ns) = default ∅ m.
Proof.
  unfold apply_diff. apply map_eq. intros k.
  assert (Hm : default ∅ m !! k = go_lookup m k).
  { destruct m; simpl; [done|]. by rewrite lookup_empty. }
  rewrite Hm.
  destruct (go_lookup m k) as [v|] eqn:Hk.
  - destruct (decide (cached c ns !! k = Some v)) as [Hc|Hc].
    + rewrite foldl_insert_lookup_notin, foldl_delete_lookup.
      * rewrite decide_False; [done|]. intros Hin.
        apply list_elem_of_fmap in Hin as (e & -> & He).
        apply elem_of_update_dels in He as (_ & _ & Hn). congruence.
      * intros Hin. apply list_elem_of_fmap in Hin as (e & -> & He).
        apply elem_of_update_mods in He as (_ & Hv & Hne). congruence.
    + apply (foldl_insert_lookup_in _ _ (Entry k ns v)); [apply update_mods_NoDup|].
      by apply elem_of_update_mods.
  - rewrite foldl_insert_lookup_notin, foldl_delete_lookup.
    + case_decide as Hin; [done|].
      destruct (cached c ns !! k) as [w|] eqn:Hc; [|done].
      exfalso. apply Hin. apply list_elem_of_fmap. exists (Entry k ns w).
      split; [done|]. by apply elem_of_update_dels.
    + intros Hin. apply list_elem_of_fmap in Hin as (e & -> & He).
      apply elem_of_update_mods in He as (_ & Hv & Hne). congruence.
Qed.

(** X3.  The diff does not depend on the order in which Go ranges over the
    two maps: for every order of the cached map and of the new map, the two
    loops leave the cache that [update] leaves, and their batches hold the
    entries of [update]'s batches. *)
Theorem update_any_range_order (c : configWatcher) (ns : string) (m : option strmap)
    (it1 it2 : list (string * string)) :
  it1 ≡ₚ map_to_list (cached c ns) → it2 ≡ₚ go_range m →
  let r := update_loops ns m it1 it2 (cached c ns) in
  data (update c ns m).1 !! ns = Some r.1.1
  ∧ r.1.2 ≡ₚ dels (update c ns m).2
  ∧ r.2 ≡ₚ mods (update c ns m).2.
Proof.
  intros H1 H2. cbn zeta.
  destruct (update_loops_order ns m (cached c ns) it1 it2 H1 H2) as (Hd & Hdel & Hmod).
  unfold update. cbn [fst snd data set_data dels mods].
  rewrite lookup_insert_eq. by rewrite Hd.
Qed.

Lemma update_any_range_order_witness :
  let c := set_data (NewWatcher "telepresence-agents" [])
             {[ "ns" := ({[ "a" := "1"; "b" := "2" ]} : strmap) ]} in
  let r := update_loops "ns" (Some {[ "b" := "2"; "c" := "3" ]})
             [("a", "1"); ("b", "2")] [("b", "2"); ("c", "3")] (cached c "ns") in
  r.1.2 ≡ₚ dels (update c "ns" (Some {[ "b" := "2"; "c" := "3" ]})).2.
Proof.
  cbn zeta.
  refine (proj1 (proj2 (update_any_range_order _ "ns" (Some {[ "b" := "2"; "c" := "3" ]})
                          [("a", "1"); ("b", "2")] [("b", "2"); ("c", "3")] _ _))).
  - vm_compute. first [reflexivity | apply perm_swap].
  - vm_compute. first [reflexivity | apply perm_swap].
Defined.

(** X4.  Namespaces do not interfere: [update] for one namespace leaves the
    cached map of every other one as it is, computes the diff it would
    compute alone, and two updates for different namespaces give the same
    watcher in either order. *)
Theorem update_namespaces_independent (c : configWatcher) (ns1 ns2 : string)
    (m1 m2 : option strmap) :
  ns1 ≠ ns2 →
  cached (update c ns1 m1).1 ns2 = cached c ns2
  ∧ (update (update c ns1 m1).1 ns2 m2).2 = (update c ns2 m2).2
  ∧ (update (update c ns1 m1).1 ns2 m2).1 = (update (update c ns2 m2).1 ns1 m1).1.
Proof.
  intros Hne.
  assert (Hc : cached (update c ns1 m1).1 ns2 = cached c ns2).
  { unfold cached. by rewrite update_data_other. }
  split; [done|]. split; [by apply update_diff_cached|].
  rewrite !update_state, !set_data_set_data. cbn [data set_data].
  by rewrite insert_insert_ne.
Qed.

Lemma update_namespaces_independent_witness :
  (update (update sample_watcher "other" (Some {[ "w2" := "create: true" ]})).1 "ns" None).2
  = (update sample_watcher "ns" None).2.
Proof.
  refine (proj1 (proj2 (update_namespaces_independent sample_watcher "other" "ns"
                          (Some {[ "w2" := "create: true" ]}) None _))).
  discriminate.
Defined.

(** ** Sending, continued *)

(** X5.  [writeToChan] sends the entries of its batch that are not named by
    the reserved key, in the order of the batch and each once: all of them
    when the context is never done, and the first [n] of them when the
    context is done after [n] sends. *)
Theorem writeToChan_sends_in_order (env : Env) (done_after : option nat)
    (es : list entry) :
  writeToChan env done_after es
  = match done_after with
    | None => filter (not_reserved env) es
    | Some n => take n (filter (not_reserved env) es)
    end
  ∧ writeToChan env done_after es `sublist_of` es
  ∧ length (writeToChan env done_after es)
    = match done_after with
      | None => length (filter (not_reserved env) es)
      | Some n => n `min` length (filter (not_reserved env) es)
      end.
Proof.
  destruct done_after as [n|].
  - rewrite writeToChan_done_after. split; [done|]. split.
    + etrans; [apply sublist_take|apply sublist_filter].
    + apply length_take.
  - rewrite writeToChan_never_done. split; [done|]. split; [apply sublist_filter|done].
Qed.

(** ** The event handler, continued *)

Section eventHandler_more.
Variable env : Env.

Lemma eventHandler_events (c : configWatcher) (evs : list Event) (rest : list received) :
  eventHandler env c ((EvEvent <$> evs) ++ rest)
  = let a := on_events env c evs in
    let b := eventHandler env a.1.1 rest in
    (b.1.1.1, a.1.2 ++ b.1.1.2, a.2 ++ b.1.2, b.2).
Proof.
  revert c. induction evs as [|ev evs IH]; intros c.
  - cbn. by destruct (eventHandler env c rest) as [[[? ?] ?] ?].
  - cbn [fmap list_fmap app eventHandler on_events].
    destruct (on_event env c ev) as [[c1 log1] d1]. cbn [fst snd].
    rewrite IH. cbn zeta.
    destruct (on_events env c1 evs) as [[ca loga] da]. cbn [fst snd].
    destruct (eventHandler env ca rest) as [[[cb logb] db] r]. cbn [fst snd].
    by rewrite !app_assoc.
Qed.

Lemma on_event_ignored (c : configWatcher) (ev : Event) :
  concerns_ConfigMap ev = false → on_event env c ev = (c, [], None).
Proof. by destruct ev as [[] []]. Qed.

Lemma on_events_ignored (c : configWatcher) (evs : list Event) :
  Forall (λ ev, concerns_ConfigMap ev = false) evs → on_events env c evs = (c, [], []).
Proof.
  induction 1 as [|ev evs Hev _ IH]; [done|].
  cbn [on_events]. rewrite on_event_ignored by done. cbn [fst snd]. by rewrite IH.
Qed.

Lemma GetInto_cached (c : configWatcher) (key ns : string) :
  GetInto env c key ns
  = match cached c ns !! key with
    | None => (None, None)
    | Some v =>
        match yaml_decode env v with
        | inl err => (None, Some err)
        | inr ac => (Some ac, None)
        end
    end.
Proof.
  unfold GetInto, cached. destruct (data c !! ns) as [nm|]; simpl; [done|].
  by rewrite lookup_empty.
Qed.
End eventHandler_more.

(** X6.  [eventHandler] handles the events of the result channel in order
    and stops at the first cancellation or closure: what follows on the
    channel is never handled.  It returns [true] (restart the watch) on
    closure and [false] on cancellation, and goes on waiting when the
    channel holds events only. *)
Theorem eventHandler_stops_at_end (env : Env) (c : configWatcher) (evs : list Event)
    (rest : list received) :
  let a := on_events env c evs in
  eventHandler env c ((EvEvent <$> evs) ++ EvClosed :: rest) = (a, Some true)
  ∧ eventHandler env c ((EvEvent <$> evs) ++ EvCtxDone :: rest) = (a, Some false)
  ∧ eventHandler env c (EvEvent <$> evs) = (a, None).
Proof.
  cbn zeta. split; [|split].
  - rewrite eventHandler_events. cbn. rewrite !app_nil_r.
    by destruct (on_events env c evs) as [[? ?] ?].
  - rewrite eventHandler_events. cbn. rewrite !app_nil_r.
    by destruct (on_events env c evs) as [[? ?] ?].
  - rewrite <- (app_nil_r (EvEvent <$> evs)). rewrite eventHandler_events.
    cbn. rewrite !app_nil_r. by destruct (on_events env c evs) as [[? ?] ?].
Qed.

(** X7.  Events that are not an [Added], [Modified] or [Deleted] of a
    ConfigMap (bookmarks, errors, objects of another type) are passed over:
    a run of them leaves the watcher as it is, logs nothing and computes no
    diff, so the handler behaves as if they were not on the channel. *)
Theorem eventHandler_skips_other_events (env : Env) (c : configWatcher)
    (evs : list Event) (rest : list received) :
  Forall (λ ev, concerns_ConfigMap ev = false) evs →
  eventHandler env c ((EvEvent <$> evs) ++ rest) = eventHandler env c rest.
Proof.
  intros Hevs. rewrite eventHandler_events, on_events_ignored by done.
  cbn. by destruct (eventHandler env c rest) as [[[? ?] ?] ?].
Qed.

Lemma eventHandler_skips_other_events_witness :
  eventHandler sample_env sample_watcher
    ((EvEvent <$> [mkEvent Bookmark ObjOther; mkEvent Error ObjOther;
                   mkEvent Added ObjOther]) ++ [EvClosed])
  = eventHandler sample_env sample_watcher [EvClosed].
Proof.
  apply (eventHandler_skips_other_events sample_env sample_watcher
           [mkEvent Bookmark ObjOther; mkEvent Error ObjOther; mkEvent Added ObjOther]
           [EvClosed]).
  by repeat constructor.
Defined.

(** X8.  After an [Added] or [Modified] event for the ConfigMap of the
    fixed name, [GetInto] sees exactly the data of that event for its
    namespace: a key absent from the data is not found, without error; a
    key of the data is decoded, and the decoding error, if any, is
    returned. *)
Theorem GetInto_after_event (env : Env) (c : configWatcher) (m : ConfigMapObj)
    (t : EventType) (key : string) :
  Name m = agent_ConfigMap env → t = Added ∨ t = Modified →
  let c' := (on_event env c (mkEvent t (ObjConfigMap m))).1.1 in
  GetInto env c' key (Namespace_of m)
  = match go_lookup (Data m) key with
    | None => (None, None)
    | Some v =>
        match yaml_decode env v with
        | inl err => (None, Some err)
        | inr ac => (Some ac, None)
        end
    end.
Proof.
  intros Hname Ht. cbn zeta. rewrite GetInto_cached.
  assert (Hc : (on_event env c (mkEvent t (ObjConfigMap m))).1.1
               = (update c (Namespace_of m) (Data m)).1).
  { unfold on_event. cbn [Type_of Object_of].
    destruct Ht as [-> | ->]; by rewrite bool_decide_false by (by intros ?). }
  rewrite Hc, update_cached.
  destruct (Data m) as [d|]; simpl; [done|]. by rewrite lookup_empty.
Qed.

Lemma GetInto_after_event_witness :
  let m := mkConfigMap "telepresence-agents" "ns" (Some {[ "w1" := "create: true" ]}) in
  GetInto sample_env (on_event sample_env sample_watcher (mkEvent Modified (ObjConfigMap m))).1.1
    "w1" "ns"
  = (Some sample_create, None).
Proof.
  exact (GetInto_after_event sample_env sample_watcher
           (mkConfigMap "telepresence-agents" "ns" (Some {[ "w1" := "create: true" ]}))
           Modified "w1" eq_refl (or_intror eq_refl)).
Defined.

(** X9.  After a [Deleted] event carrying a ConfigMap, [GetInto] finds no
    key in the namespace of that ConfigMap, and reports no error; what it
    finds in the other namespaces is unchanged. *)
Theorem GetInto_after_Deleted (env : Env) (c : configWatcher) (m : ConfigMapObj)
    (key ns : string) :
  let c' := (on_event env c (mkEvent Deleted (ObjConfigMap m))).1.1 in
  GetInto env c' key ns
  = if decide (ns = Namespace_of m) then (None, None) else GetInto env c key ns.
Proof.
  cbn zeta. rewrite on_event_Deleted. cbn [fst]. rewrite !GetInto_cached.
  case_decide as Hns.
  - subst ns. rewrite update_cached. simpl. by rewrite lookup_empty.
  - unfold cached. by rewrite update_data_other.
Qed.

(** ** The watch loop *)

Section do_loop.
Variable env : Env.

Lemma do_loop_closed (c : configWatcher) (evs : list Event) (junk : list received)
    (turns : list watch_attempt) :
  do_loop env c (Watching ((EvEvent <$> evs) ++ EvClosed :: junk) :: turns)
  = let a := on_events env c evs in
    let b := do_loop env a.1.1 turns in
    (b.1.1.1, a.1.2 ++ b.1.1.2, a.2 ++ b.1.2, b.2).
Proof.
  cbn [do_loop]. rewrite eventHandler_events. cbn. rewrite !app_nil_r.
  destruct (on_events env c evs) as [[ca loga] da]. cbn [fst snd].
  by destruct (do_loop env ca turns) as [[[? ?] ?] ?].
Qed.

Lemma do_loop_cancelled (c : configWatcher) (evs : list Event) (junk : list received)
    (turns : list watch_attempt) :
  do_loop env c (Watching ((EvEvent <$> evs) ++ EvCtxDone :: junk) :: turns)
  = (on_events env c evs, true).
Proof.
  cbn [do_loop]. rewrite eventHandler_events. cbn. rewrite !app_nil_r.
  by destruct (on_events env c evs) as [[ca loga] da].
Qed.

Lemma on_events_Added_same (c : configWatcher) (m : ConfigMapObj) (t : EventType) :
  Name m = agent_ConfigMap env → t = Added ∨ t = Modified →
  on_event env c (mkEvent t (ObjConfigMap m))
  = ((update c (Namespace_of m) (Data m)).1,
     [Infof "%s %s.%s"
        [match t with Added => "ADDED" | _ => "MODIFIED" end; Name m; Namespace_of m]],
     Some (update c (Namespace_of m) (Data m)).2).
Proof.
  intros Hname Ht. unfold on_event. cbn [Type_of Object_of].
  destruct Ht as [-> | ->]; by rewrite bool_decide_false by (by intros ?).
Qed.
End do_loop.

(** X10.  The loop of [do] starts the watch over each time the result
    channel is closed, carrying the cache from one watch to the next, and
    ends for good, without opening another watch, when the context is
    cancelled (at the loop head or inside the handler) or when [Watch]
    fails, which it only logs. *)
Theorem do_loop_restarts_until_cancelled (env : Env) (c : configWatcher)
    (evs : list Event) (junk : list received) (err : error)
    (turns : list watch_attempt) :
  do_loop env c (Watching ((EvEvent <$> evs) ++ EvClosed :: junk) :: turns)
  = (let a := on_events env c evs in
     let b := do_loop env a.1.1 turns in
     (b.1.1.1, a.1.2 ++ b.1.1.2, a.2 ++ b.1.2, b.2))
  ∧ do_loop env c (Watching ((EvEvent <$> evs) ++ EvCtxDone :: junk) :: turns)
    = (on_events env c evs, true)
  ∧ do_loop env c (WatchFails err :: turns)
    = (c, [Errorf "unable to create watcher: %v" [] err], [], true)
  ∧ do_loop env c (CtxErr :: turns) = (c, [], [], true)
  ∧ (do_loop env c (Watching (EvEvent <$> evs) :: turns)).2 = false.
Proof.
  split; [apply do_loop_closed|]. split; [apply do_loop_cancelled|].
  split; [done|]. split; [done|].
  cbn [do_loop]. rewrite <- (app_nil_r (EvEvent <$> evs)), eventHandler_events. cbn.
  by destruct (on_events env c evs) as [[? ?] ?].
Qed.

(** X11.  A restarted watch that delivers the ConfigMap again, unchanged,
    dispatches nothing: over two watches that each deliver the same
    ConfigMap of the fixed name and are then closed, the second one
    computes the empty diff, nothing is sent for it on either channel, and
    the cache is the one left by the first. *)
Theorem restarted_watch_replay_is_silent (env : Env) (c : configWatcher)
    (m : ConfigMapObj) (t1 t2 : EventType) (done_del done_mod : option nat) :
  Name m = agent_ConfigMap env →
  t1 = Added ∨ t1 = Modified → t2 = Added ∨ t2 = Modified →
  let first := update c (Namespace_of m) (Data m) in
  let r := do_loop env c
             [Watching [EvEvent (mkEvent t1 (ObjConfigMap m)); EvClosed];
              Watching [EvEvent (mkEvent t2 (ObjConfigMap m)); EvClosed]] in
  r.1.1.1 = first.1
  ∧ r.1.2 = [first.2; Diff [] []]
  ∧ dispatch env done_del done_mod (Diff [] []) = Sent [] []
  ∧ r.2 = false.
Proof.
  intros Hname Ht1 Ht2. cbn zeta.
  rewrite (do_loop_closed env c [mkEvent t1 (ObjConfigMap m)] []). cbn zeta.
  cbn [on_events]. rewrite (on_events_Added_same env c m t1 Hname Ht1). cbn [fst snd].
  rewrite (do_loop_closed env _ [mkEvent t2 (ObjConfigMap m)] []). cbn zeta.
  cbn [on_events]. rewrite (on_events_Added_same env _ m t2 Hname Ht2). cbn [fst snd].
  cbn [do_loop option_list app].
  pose proof (update_nothing_to_do (update c (Namespace_of m) (Data m)).1
                (Namespace_of m) (Data m) (update_cached _ _ _)) as Hd.
  split; [|split; [|split; [done|done]]].
  - rewrite (update_state (update c (Namespace_of m) (Data m)).1), (update_state c).
    rewrite set_data_set_data. cbn [data set_data]. by rewrite insert_insert_eq.
  - by rewrite Hd.
Qed.

Lemma restarted_watch_replay_is_silent_witness :
  let m := mkConfigMap "telepresence-agents" "ns" (Some {[ "w1" := "create: true" ]}) in
  (do_loop sample_env sample_watcher
     [Watching [EvEvent (mkEvent Added (ObjConfigMap m)); EvClosed];
      Watching [EvEvent (mkEvent Added (ObjConfigMap m)); EvClosed]]).2 = false.
Proof.
  exact (proj2 (proj2 (proj2
           (restarted_watch_replay_is_silent sample_env sample_watcher
              (mkConfigMap "telepresence-agents" "ns" (Some {[ "w1" := "create: true" ]}))
              Added Added None None eq_refl (or_introl eq_refl) (or_introl eq_refl))))).
Defined.

(** ** The config store, continued *)

Section Store_more.
Variable env : Env.

Lemma Store_locked_fst (c : configWatcher) (ns a yml : string) (b : bool) :
  (Store_locked c ns a yml b).1 = bool_decide (cached c ns !! a = Some yml).
Proof.
  unfold Store_locked, cached. destruct (data c !! ns) as [nm|]; simpl.
  - destruct (nm !! a) as [old|]; simpl.
    + apply bool_decide_ext. split; congruence.
    + done.
  - by rewrite lookup_empty.
Qed.

Lemma Store_locked_cached (c : configWatcher) (ns a yml : string) (b : bool) (ns' : string) :
  cached (Store_locked c ns a yml b).2 ns'
  = if decide (ns' = ns)
    then (if b then <[a := yml]> (cached c ns) else cached c ns)
    else cached c ns'.
Proof.
  destruct (decide (ns' = ns)) as [->|Hn].
  - unfold Store_locked, cached.
    destruct (data c !! ns) as [nm|] eqn:Hns; cbn [fst snd data set_data default].
    + rewrite lookup_insert_eq. cbn [default].
      destruct (nm !! a) as [old|] eqn:Ha; [|by destruct b].
      destruct b; cbn [andb negb]; [|done].
      case_bool_decide as Hold; cbn [negb]; [|done].
      subst old. by rewrite insert_id.
    + rewrite lookup_insert_eq. cbn [default andb negb]. by destruct b.
  - unfold Store_locked, cached.
    destruct (data c !! ns) as [nm|] eqn:Hns; cbn [fst snd data set_data];
      by rewrite lookup_insert_ne.
Qed.

(** [Store] once the configuration is serialized and the read is not
    refused: the critical section, then one write unless the value is the
    cached one. *)
Lemma Store_proceeds (c : configWatcher) (ac : Config) (yml : string) (b : bool) :
  yaml_encode env ac = inr yml → read_refused env (Namespace ac) = false →
  let get := CallGet (Namespace ac) (agent_ConfigMap env) in
  let found := match api_Get env (Namespace ac) (agent_ConfigMap env) with
               | inl _ => false | inr _ => true end in
  let w := written_by_Store env ac yml in
  Store env c ac b
  = if bool_decide (cached c (Namespace ac) !! AgentName ac = Some yml)
    then ((Store_locked c (Namespace ac) (AgentName ac) yml b).2, [get], None)
    else ((Store_locked c (Namespace ac) (AgentName ac) yml b).2,
          [get;
           Infof (if found then "updating ConfigMap %s.%s" else "creating new ConfigMap %s.%s")
             [agent_ConfigMap env; Namespace ac];
           w],
          match w with
          | CallCreate ns cm => api_Create env ns cm
          | CallUpdate ns cm => api_Update env ns cm
          | _ => None
          end).
Proof.
  intros Henc Hread. cbn zeta. unfold Store, read_refused, written_by_Store in *.
  rewrite Henc. rewrite <- (Store_locked_fst c (Namespace ac) (AgentName ac) yml b).
  destruct (Store_locked c (Namespace ac) (AgentName ac) yml b) as [eq c'].
  cbn [fst snd].
  destruct (api_Get env (Namespace ac) (agent_ConfigMap env)) as [err|cm].
  - rewrite Hread. by destruct eq.
  - by destruct eq.
Qed.

End Store_more.

(** X12.  When the ConfigMap does not exist yet (the read reports
    not-found) and the serialized configuration is not the cached value,
    [Store] makes exactly one remote write: it creates the ConfigMap of the
    fixed name in the namespace of the configuration, holding just the key
    of the agent, and returns what the creation returns. *)
Theorem Store_creates_missing_ConfigMap (env : Env) (c : configWatcher) (ac : Config)
    (yml : string) (b : bool) (err : error) :
  yaml_encode env ac = inr yml →
  api_Get env (Namespace ac) (agent_ConfigMap env) = inl err → IsNotFound err = true →
  cached c (Namespace ac) !! AgentName ac ≠ Some yml →
  let cm := {| Name := agent_ConfigMap env; Namespace_of := Namespace ac;
               Data := Some {[ AgentName ac := yml ]} |} in
  let r := Store env c ac b in
  remote_writes r.1.2 = [CallCreate (Namespace ac) cm]
  ∧ r.2 = api_Create env (Namespace ac) cm.
Proof.
  intros Henc Hget Hnf Hc. cbn zeta.
  rewrite (Store_proceeds env c ac yml b Henc)
    by (unfold read_refused; by rewrite Hget, Hnf).
  cbn zeta. rewrite bool_decide_false by done.
  unfold written_by_Store. by rewrite Hget.
Qed.

Lemma Store_creates_missing_ConfigMap_witness :
  (Store sample_env_empty (NewWatcher "telepresence-agents" []) sample_generated true).2
  = Some (ErrApi false "quota exceeded").
Proof.
  refine (proj2 (Store_creates_missing_ConfigMap sample_env_empty
                   (NewWatcher "telepresence-agents" []) sample_generated
                   "create: false" true (ErrApi true "not found")
                   eq_refl eq_refl eq_refl _)).
  by vm_compute.
Defined.

(** X13.  When the ConfigMap exists and the serialized configuration is not
    the cached value, [Store] makes exactly one remote write: it updates the
    ConfigMap it has read with the key of the agent set to the serialized
    configuration and every other key as read (a nil data map counting as
    empty), and returns what the update returns. *)
Theorem Store_merges_into_ConfigMap (env : Env) (c : configWatcher) (ac : Config)
    (yml : string) (b : bool) (cm : ConfigMapObj) :
  yaml_encode env ac = inr yml →
  api_Get env (Namespace ac) (agent_ConfigMap env) = inr cm →
  cached c (Namespace ac) !! AgentName ac ≠ Some yml →
  let r := Store env c ac b in
  ∃ d, let cm' := {| Name := Name cm; Namespace_of := Namespace_of cm; Data := Some d |} in
    remote_writes r.1.2 = [CallUpdate (Namespace ac) cm']
    ∧ r.2 = api_Update env (Namespace ac) cm'
    ∧ d !! AgentName ac = Some yml
    ∧ ∀ k, k ≠ AgentName ac → d !! k = go_lookup (Data cm) k.
Proof.
  intros Henc Hget Hc. cbn zeta.
  rewrite (Store_proceeds env c ac yml b Henc)
    by (unfold read_refused; by rewrite Hget).
  cbn zeta. rewrite bool_decide_false by done.
  unfold written_by_Store. rewrite Hget.
  exists (<[AgentName ac := yml]> (default ∅ (Data cm))).
  split; [done|]. split; [done|]. split; [by rewrite lookup_insert_eq|].
  intros k Hk. rewrite lookup_insert_ne by done.
  destruct (Data cm); simpl; [done|]. by rewrite lookup_empty.
Qed.

Lemma Store_merges_into_ConfigMap_witness :
  (Store sample_env (NewWatcher "telepresence-agents" []) sample_generated false).2 = None.
Proof.
  destruct (Store_merges_into_ConfigMap sample_env (NewWatcher "telepresence-agents" [])
              sample_generated "create: false" false
              (mkConfigMap "telepresence-agents" "ns" (Some {[ "w1" := "create: true" ]}))
              eq_refl eq_refl) as (d & _ & H & _).
  - by vm_compute.
  - exact H.
Defined.

Section Store_cache.
Variable env : Env.

Lemma Store_cached (c : configWatcher) (ac : Config) (yml : string) (b : bool) (ns' : string) :
  yaml_encode env ac = inr yml → read_refused env (Namespace ac) = false →
  cached (Store env c ac b).1.1 ns'
  = if decide (ns' = Namespace ac)
    then (if b then <[AgentName ac := yml]> (cached c (Namespace ac))
          else cached c (Namespace ac))
    else cached c ns'.
Proof.
  intros Henc Hread. rewrite (Store_proceeds env c ac yml b Henc Hread). cbn zeta.
  case_bool_decide; cbn [fst snd]; apply Store_locked_cached.
Qed.

Lemma Store_trace_shape (c : configWatcher) (ac : Config) (b : bool) :
  let tr := (Store env c ac b).1.2 in
  length (remote_writes tr) ≤ 1 ∧ patches tr = [] ∧ List.filter is_generate tr = []
  ∧ (tr = [] ∨ ∃ tl, tr = CallGet (Namespace ac) (agent_ConfigMap env) :: tl
                     ∧ List.filter is_store_call tl = remote_writes tl).
Proof.
  cbn zeta. unfold Store.
  assert (Hshape : ∀ tl : list effect,
            List.filter is_store_call tl = remote_writes tl → length (remote_writes tl) ≤ 1 →
            patches tl = [] → List.filter is_generate tl = [] →
            let tr := CallGet (Namespace ac) (agent_ConfigMap env) :: tl in
            length (remote_writes tr) ≤ 1 ∧ patches tr = [] ∧ List.filter is_generate tr = []
            ∧ (tr = [] ∨ ∃ tl', tr = CallGet (Namespace ac) (agent_ConfigMap env) :: tl'
                               ∧ List.filter is_store_call tl' = remote_writes tl')).
  { intros tl H1 H2 H3 H4. cbn zeta. repeat split; try done. right. by exists tl. }
  destruct (yaml_encode env ac) as [err|yml].
  { cbn. repeat split; try lia. by left. }
  destruct (Store_locked c (Namespace ac) (AgentName ac) yml b) as [eq c'].
  destruct (api_Get env (Namespace ac) (agent_ConfigMap env)) as [err|cm].
  - destruct (IsNotFound err); cbn [negb fst snd]; [|by apply Hshape; cbn; try lia].
    destruct eq; cbn [fst snd]; apply Hshape; cbn; try done; lia.
  - destruct eq; cbn [fst snd]; apply Hshape; cbn; try done; lia.
Qed.
End Store_cache.

(** X14.  A store with the snapshot flag set hides its own write from the
    watcher: once it has run (the configuration serialized, the read not
    refused), a ConfigMap event whose data hold the serialized
    configuration under the key of the agent yields neither a modify-entry
    nor a delete-entry for that key, whether or not the write succeeded. *)
Theorem Store_snapshot_hides_own_write (env : Env) (c : configWatcher) (ac : Config)
    (yml : string) (m : strmap) :
  yaml_encode env ac = inr yml → read_refused env (Namespace ac) = false →
  m !! AgentName ac = Some yml →
  let c' := (Store env c ac true).1.1 in
  let d := (update c' (Namespace ac) (Some m)).2 in
  (AgentName ac ∉ (name <$> mods d)) ∧ (AgentName ac ∉ (name <$> dels d)).
Proof.
  intros Henc Hread Hm. cbn zeta.
  pose proof (Store_cached env c ac yml true (Namespace ac) Henc Hread) as Hc.
  rewrite decide_True in Hc by done.
  split; intros Hin; apply list_elem_of_fmap in Hin as (e & He & Hin).
  - apply elem_of_update_mods in Hin as (_ & Hv & Hne). apply Hne.
    rewrite Hc, <- He, lookup_insert_eq. simpl in Hv. congruence.
  - apply elem_of_update_dels in Hin as (_ & _ & Hn). simpl in Hn. congruence.
Qed.

Lemma Store_snapshot_hides_own_write_witness :
  "w1" ∉ (name <$> mods (update (Store sample_env sample_watcher sample_create true).1.1
                           "ns" (Some {[ "w1" := "create: true" ]})).2).
Proof.
  exact (proj1 (Store_snapshot_hides_own_write sample_env sample_watcher sample_create
                  "create: true" {[ "w1" := "create: true" ]} eq_refl eq_refl eq_refl)).
Defined.

(** X15.  A store without the snapshot flag leaves its write to be seen:
    when the serialized configuration is not the cached value, a ConfigMap
    event whose data hold it under the key of the agent yields a
    modify-entry for that key with the serialized configuration. *)
Theorem Store_without_snapshot_shows_write (env : Env) (c : configWatcher) (ac : Config)
    (yml : string) (m : strmap) :
  yaml_encode env ac = inr yml →
  cached c (Namespace ac) !! AgentName ac ≠ Some yml →
  m !! AgentName ac = Some yml →
  let c' := (Store env c ac false).1.1 in
  Entry (AgentName ac) (Namespace ac) yml
    ∈ mods (update c' (Namespace ac) (Some m)).2.
Proof.
  intros Henc Hc Hm. cbn zeta. apply elem_of_update_mods. cbn [name namespace value].
  split; [done|]. split; [done|]. by rewrite Store_no_snapshot_cached.
Qed.

Lemma Store_without_snapshot_shows_write_witness :
  Entry "w1" "ns" "create: true"
    ∈ mods (update (Store sample_env sample_watcher sample_create false).1.1
              "ns" (Some {[ "w1" := "create: true" ]})).2.
Proof.
  refine (Store_without_snapshot_shows_write sample_env sample_watcher sample_create
            "create: true" {[ "w1" := "create: true" ]} eq_refl _ eq_refl).
  by vm_compute.
Defined.

(** X16.  What [Store] does to the cache when the configuration is
    serialized and the read is not refused: with the snapshot flag the key
    of the agent in the namespace of the configuration holds the serialized
    configuration, also when the remote write fails; without the flag, and
    for every other key and namespace, the cached values are the ones
    before. *)
Theorem Store_cache_effect (env : Env) (c : configWatcher) (ac : Config)
    (yml : string) (b : bool) (ns k : string) :
  yaml_encode env ac = inr yml → read_refused env (Namespace ac) = false →
  cached (Store env c ac b).1.1 ns !! k
  = if decide (b = true ∧ ns = Namespace ac ∧ k = AgentName ac)
    then Some yml
    else cached c ns !! k.
Proof.
  intros Henc Hread. rewrite (Store_cached env c ac yml b ns Henc Hread).
  destruct (decide (ns = Namespace ac)) as [->|Hns].
  - destruct b.
    + destruct (decide (k = AgentName ac)) as [->|Hk].
      * rewrite lookup_insert_eq. by rewrite decide_True.
      * rewrite lookup_insert_ne by done. rewrite decide_False; [done|]. by intros (_ & _ & ?).
    + rewrite decide_False; [done|]. by intros (? & _).
  - rewrite decide_False; [done|]. by intros (_ & ? & _).
Qed.

Lemma Store_cache_effect_witness :
  cached (Store sample_env_empty (NewWatcher "telepresence-agents" []) sample_generated true).1.1
    "ns" !! "w1"
  = Some "create: false".
Proof.
  exact (Store_cache_effect sample_env_empty (NewWatcher "telepresence-agents" [])
           sample_generated "create: false" true "ns" "w1" eq_refl eq_refl).
Defined.

(** X17.  [Store] gives up before touching anything when the
    configuration cannot be serialized or when the read of the ConfigMap
    fails with an error other than not-found: it returns an error, makes no
    remote write and leaves the watcher as it is. *)
Theorem Store_gives_up_early (env : Env) (c : configWatcher) (ac : Config) (b : bool) :
  (∃ err, yaml_encode env ac = inl err) ∨ read_refused env (Namespace ac) = true →
  (Store env c ac b).1.1 = c
  ∧ remote_writes (Store env c ac b).1.2 = []
  ∧ is_Some (Store env c ac b).2.
Proof.
  unfold Store, read_refused. intros [[err Henc]|Hread].
  - rewrite Henc. eauto.
  - destruct (yaml_encode env ac) as [err|yml]; [eauto|].
    destruct (api_Get env (Namespace ac) (agent_ConfigMap env)) as [err|cm]; [|done].
    rewrite Hread. eauto.
Qed.

Lemma Store_gives_up_early_witness :
  (Store sample_env_forbidden sample_watcher sample_create true).1.1 = sample_watcher.
Proof.
  refine (proj1 (Store_gives_up_early sample_env_forbidden sample_watcher sample_create
                   true _)).
  right. reflexivity.
Defined.

(** X18.  Whatever it is given, [Store] makes at most one remote write,
    never patches a workload and never calls the generator, and every call
    it makes comes after its one read of the ConfigMap. *)
Theorem Store_calls_are_bounded (env : Env) (c : configWatcher) (ac : Config) (b : bool) :
  let tr := (Store env c ac b).1.2 in
  length (remote_writes tr) ≤ 1
  ∧ patches tr = []
  ∧ List.filter is_generate tr = []
  ∧ (tr = [] ∨ ∃ tl, tr = CallGet (Namespace ac) (agent_ConfigMap env) :: tl
                     ∧ List.filter is_store_call tl = remote_writes tl).
Proof. apply Store_trace_shape. Qed.

(** X19.  Storing the same configuration again after a store with the
    snapshot flag that reached the cache (the configuration serialized, the
    read of the ConfigMap not refused) writes nothing, whatever the cluster
    answers the second time: the second call reads the ConfigMap, makes no
    remote write and leaves the watcher as the first call left it; it
    returns no error unless its own read fails with an error other than
    not-found, which it returns wrapped. *)
Theorem Store_again_is_no_write (env env' : Env) (c : configWatcher) (ac : Config)
    (yml : string) (b : bool) :
  yaml_encode env ac = inr yml → read_refused env (Namespace ac) = false →
  yaml_encode env' ac = inr yml →
  let c1 := (Store env c ac true).1.1 in
  let r := Store env' c1 ac b in
  r.1.1 = c1
  ∧ r.1.2 = [CallGet (Namespace ac) (agent_ConfigMap env')]
  ∧ remote_writes r.1.2 = []
  ∧ r.2 = match api_Get env' (Namespace ac) (agent_ConfigMap env') with
          | inl err =>
              if IsNotFound err then None
              else Some (ErrGetConfigMap (agent_ConfigMap env') err)
          | inr _ => None
          end.
Proof.
  intros Henc Hread Henc'. cbn zeta.
  pose proof (Store_cached env c ac yml true (Namespace ac) Henc Hread) as Hc.
  rewrite decide_True in Hc by done.
  assert (Hk : data (Store env c ac true).1.1 !! Namespace ac ≫= (.!! AgentName ac)
               = Some yml).
  { unfold cached in Hc.
    destruct (data (Store env c ac true).1.1 !! Namespace ac) as [nm|]; simpl in *.
    - by rewrite Hc, lookup_insert_eq.
    - apply (f_equal (.!! AgentName ac)) in Hc.
      by rewrite lookup_empty, lookup_insert_eq in Hc. }
  clear Hc. revert Hk. generalize (Store env c ac true).1.1. intros c1 Hk.
  unfold Store. rewrite Henc'.
  rewrite (Store_locked_equal _ _ _ _ _ Hk).
  destruct (api_Get env' (Namespace ac) (agent_ConfigMap env')) as [err|cm]; [|done].
  by destruct (IsNotFound err).
Qed.

Lemma Store_again_is_no_write_witness :
  let c1 := (Store sample_env sample_watcher sample_create true).1.1 in
  remote_writes (Store sample_env_forbidden c1 sample_create false).1.2 = []
  ∧ (Store sample_env_forbidden c1 sample_create false).2
    = Some (ErrGetConfigMap "telepresence-agents" (ErrApi false "forbidden")).
Proof.
  cbn zeta.
  destruct (Store_again_is_no_write sample_env sample_env_forbidden sample_watcher
              sample_create "create: true" false eq_refl eq_refl eq_refl)
    as (_ & _ & Hw & Hr).
  split; [exact Hw|exact Hr].
Defined.

(** ** The dispatch loop, continued *)

Section Run_more.
Variable env : Env.

Lemma Store_fields (c : configWatcher) (ac : Config) (b : bool) :
  cw_name (Store env c ac b).1.1 = cw_name c
  ∧ namespaces (Store env c ac b).1.1 = namespaces c.
Proof.
  unfold Store. destruct (yaml_encode env ac) as [err|yml]; [done|].
  assert (Hl : cw_name (Store_locked c (Namespace ac) (AgentName ac) yml b).2 = cw_name c
               ∧ namespaces (Store_locked c (Namespace ac) (AgentName ac) yml b).2
                 = namespaces c).
  { unfold Store_locked. by destruct (data c !! Namespace ac) as [nm|]. }
  destruct (Store_locked c (Namespace ac) (AgentName ac) yml b) as [eq c'].
  destruct (api_Get env (Namespace ac) (agent_ConfigMap env)) as [err|cm].
  - destruct (IsNotFound err); cbn [negb]; [|done]. by destruct eq.
  - by destruct eq.
Qed.

Lemma Run_del_state (c : configWatcher) (e : entry) : (Run_del env c e).1 = c.
Proof.
  unfold Run_del. destruct (workload env e) as [tr [err|[ac wl]]]; [done|].
  by destruct (Create ac).
Qed.

Lemma Run_add_state (c : configWatcher) (e : entry) :
  (∀ ns, cached (Run_add env c e).1 ns = cached c ns)
  ∧ cw_name (Run_add env c e).1 = cw_name c
  ∧ namespaces (Run_add env c e).1 = namespaces c.
Proof.
  unfold Run_add. destruct (workload env e) as [tr [err|[ac wl]]]; [done|].
  destruct (Create ac); [|done].
  destruct (Generate env wl (GetPodTemplate wl)) as [err|ac']; [done|].
  pose proof (Store_no_snapshot_cached env c ac') as Hc.
  pose proof (Store_fields c ac' false) as Hf.
  by destruct (Store env c ac' false) as [[c' tr'] res].
Qed.

Lemma count_app (f : effect → bool) (tr1 tr2 : list effect) :
  count f (tr1 ++ tr2) = count f tr1 + count f tr2.
Proof. unfold count. by rewrite List.filter_app, length_app. Qed.

Lemma count_cons (f : effect → bool) (x : effect) (tr : list effect) :
  count f (x :: tr) = (if f x then 1 else 0) + count f tr.
Proof. unfold count. cbn. by destruct (f x). Qed.

Lemma count_nil (f : effect → bool) : count f [] = 0.
Proof. done. Qed.

Lemma workload_trace (e : entry) :
  count is_patch (workload env e).1 = 0
  ∧ count is_remote_write (workload env e).1 = 0
  ∧ count is_generate (workload env e).1 = 0
  ∧ count is_store_call (workload env e).1 = 0.
Proof.
  unfold workload. destruct (yaml_decode env (value e)) as [err|ac]; [done|].
  by destruct (k8s_GetWorkload env (WorkloadName ac) (Namespace ac) (WorkloadKind ac)).
Qed.

Lemma triggerRollout_trace (wl : Workload) :
  count is_patch (triggerRollout env wl) = 1
  ∧ count is_remote_write (triggerRollout env wl) = 0
  ∧ count is_generate (triggerRollout env wl) = 0
  ∧ count is_store_call (triggerRollout env wl) = 0.
Proof. unfold triggerRollout. by destruct (wl_Patch env wl). Qed.

Lemma Run_del_trace (c : configWatcher) (e : entry) :
  count is_patch (Run_del env c e).2 ≤ 1
  ∧ count is_remote_write (Run_del env c e).2 = 0
  ∧ count is_generate (Run_del env c e).2 = 0
  ∧ count is_store_call (Run_del env c e).2 = 0.
Proof.
  unfold Run_del. destruct (workload_trace e) as (H1 & H2 & H3 & H4).
  destruct (workload env e) as [tr [err|[ac wl]]]; cbn [fst snd] in *.
  - rewrite !count_cons, !count_app, !count_cons, !count_nil, H1, H2, H3, H4.
    cbn. lia.
  - destruct (triggerRollout_trace wl) as (T1 & T2 & T3 & T4).
    destruct (Create ac); cbn [snd].
    + rewrite !count_cons, H1, H2, H3, H4. cbn. lia.
    + rewrite !count_cons, !count_app, H1, H2, H3, H4, T1, T2, T3, T4. cbn. lia.
Qed.

Lemma Run_add_trace (c : configWatcher) (e : entry) :
  count is_patch (Run_add env c e).2 + count is_remote_write (Run_add env c e).2 ≤ 1
  ∧ count is_generate (Run_add env c e).2 ≤ 1.
Proof.
  unfold Run_add. destruct (workload_trace e) as (H1 & H2 & H3 & H4).
  destruct (workload env e) as [tr [err|[ac wl]]]; cbn [fst snd] in *.
  - rewrite !count_cons, !count_app, !count_cons, !count_nil, H1, H2, H3.
    cbn. lia.
  - destruct (triggerRollout_trace wl) as (T1 & T2 & T3 & T4).
    destruct (Create ac).
    + destruct (Generate env wl (GetPodTemplate wl)) as [err|ac'].
      * cbn [snd]. rewrite !count_cons, !count_app, !count_cons, !count_nil, H1, H2, H3.
        cbn. lia.
      * destruct (Store_trace_shape env c ac' false) as (S1 & S2 & S3 & _).
        destruct (Store env c ac' false) as [[c' tr'] res]. cbn [fst snd] in *.
        change (count is_remote_write tr' ≤ 1) in S1.
        assert (Hp : count is_patch tr' = 0) by (unfold count; fold (patches tr'); by rewrite S2).
        assert (Hg : count is_generate tr' = 0) by (unfold count; by rewrite S3).
        rewrite !count_cons, !count_app, !count_cons, !count_app, H1, H2, H3, Hp, Hg.
        destruct res; rewrite ?count_cons, !count_nil; cbn; lia.
    + cbn [snd]. rewrite !count_cons, !count_app, H1, H2, H3, T1, T2, T3. cbn. lia.
Qed.
End Run_more.

(** X20.  For a modify-entry whose value decodes to a configuration with
    [Create] unset and whose workload resolves, the dispatch loop patches
    the workload exactly once and does nothing else: no generator, no
    store, the watcher as it was; a failure of the patch is logged and goes
    no further. *)
Theorem modified_entry_is_rolled_out (env : Env) (c : configWatcher) (e : entry)
    (ac : Config) (wl : Workload) :
  yaml_decode env (value e) = inr ac →
  k8s_GetWorkload env (WorkloadName ac) (Namespace ac) (WorkloadKind ac) = inr wl →
  Create ac = false →
  Run_add env c e
  = (c, [Infof "add %s.%s: %s" [name e; namespace e; value e];
         CallGetWorkload (WorkloadName ac) (Namespace ac) (WorkloadKind ac);
         CallPatch wl;
         match wl_Patch env wl with
         | Some err =>
             Errorf "unable to patch %s %s.%s: %v"
               [GetKind wl; GetName wl; GetNamespace wl] err
         | None => Infof "Successfully rolled out %s.%s" [GetName wl; GetNamespace wl]
         end]).
Proof.
  intros Hd Hw Hc. unfold Run_add.
  rewrite (workload_resolved env e ac wl Hd Hw), Hc. unfold triggerRollout.
  by destruct (wl_Patch env wl).
Qed.

Lemma modified_entry_is_rolled_out_witness :
  Run_add sample_env_empty sample_watcher (Entry "w1" "ns" "create: false")
  = (sample_watcher,
     [Infof "add %s.%s: %s" ["w1"; "ns"; "create: false"];
      CallGetWorkload "w1" "ns" "Deployment";
      CallPatch sample_wl;
      Errorf "unable to patch %s %s.%s: %v" ["Deployment"; "w1"; "ns"]
        (ErrApi false "conflict")]).
Proof.
  exact (modified_entry_is_rolled_out sample_env_empty sample_watcher
           (Entry "w1" "ns" "create: false") sample_generated sample_wl
           eq_refl eq_refl eq_refl).
Defined.

(** X21.  The dispatch loop never changes what the cache holds: whatever
    entries it processes, the cached map of every namespace, the name and
    the namespaces of the watcher are the ones it started with, so
    [GetInto] answers as before. *)
Theorem Run_keeps_cache (env : Env) (c : configWatcher) (sel : list selected) :
  let c' := (Run env c sel).1.1 in
  (∀ ns, cached c' ns = cached c ns)
  ∧ cw_name c' = cw_name c ∧ namespaces c' = namespaces c
  ∧ (∀ key ns, GetInto env c' key ns = GetInto env c key ns).
Proof.
  cbn zeta.
  assert (H : (∀ ns, cached (Run env c sel).1.1 ns = cached c ns)
              ∧ cw_name (Run env c sel).1.1 = cw_name c
              ∧ namespaces (Run env c sel).1.1 = namespaces c).
  { revert c. induction sel as [|s rest IH]; intros c; [done|].
    destruct s as [|e|e]; [done| |].
    - rewrite Run_FromDelCh. cbn zeta. cbn [fst snd]. rewrite Run_del_state. apply IH.
    - rewrite Run_FromAddCh. cbn zeta. cbn [fst snd].
      destruct (Run_add_state env c e) as (A1 & A2 & A3).
      destruct (IH (Run_add env c e).1) as (I1 & I2 & I3).
      split; [|split]; [intros ns; by rewrite I1|congruence|congruence]. }
  destruct H as (H1 & H2 & H3). split; [done|]. split; [done|]. split; [done|].
  intros key ns. by rewrite !GetInto_cached, H1.
Qed.

(** X22.  The dispatch loop ends at the first cancellation: it returns
    [nil], the entries selected after the cancellation are never processed,
    and as long as no cancellation is selected it goes on waiting. *)
Theorem Run_ends_at_cancellation (env : Env) (c : configWatcher)
    (pre post : list selected) :
  Run env c (pre ++ CtxDone :: post) = Run env c (pre ++ [CtxDone])
  ∧ (Run env c (pre ++ CtxDone :: post)).2 = Some None
  ∧ (Run env c pre).2 = if forallb is_entry pre then None else Some None.
Proof.
  split; [|split].
  - revert c. induction pre as [|s pre IH]; intros c; [done|].
    destruct s as [|e|e]; [done| |].
    + cbn [app]. rewrite !Run_FromDelCh. cbn zeta. by rewrite IH.
    + cbn [app]. rewrite !Run_FromAddCh. cbn zeta. by rewrite IH.
  - apply Run_until_done. apply elem_of_app. right. by left.
  - revert c. induction pre as [|s pre IH]; intros c; [done|].
    destruct s as [|e|e]; [done| |].
    + rewrite Run_FromDelCh. cbn zeta. cbn [snd forallb is_entry andb]. apply IH.
    + rewrite Run_FromAddCh. cbn zeta. cbn [snd forallb is_entry andb]. apply IH.
Qed.

(** X23.  The dispatch loop does at most one thing per entry: over any
    run, the rollout patches and the remote writes together are no more
    than the entries selected, and remote writes and calls of the generator
    are no more than the entries received on the modify channel (a deleted
    entry never causes either). *)
Theorem Run_one_action_per_entry (env : Env) (c : configWatcher) (sel : list selected) :
  let tr := (Run env c sel).1.2 in
  count is_patch tr + count is_remote_write tr ≤ length (List.filter is_entry sel)
  ∧ count is_remote_write tr ≤ length (List.filter is_FromAddCh sel)
  ∧ count is_generate tr ≤ length (List.filter is_FromAddCh sel).
Proof.
  cbn zeta. revert c. induction sel as [|s rest IH]; intros c.
  - cbn. lia.
  - destruct s as [|e|e].
    + cbn. lia.
    + rewrite Run_FromDelCh. cbn zeta. cbn [fst snd List.filter is_entry is_FromAddCh length].
      rewrite !count_app.
      destruct (Run_del_trace env c e) as (D1 & D2 & D3 & _).
      destruct (IH (Run_del env c e).1) as (I1 & I2 & I3). lia.
    + rewrite Run_FromAddCh. cbn zeta. cbn [fst snd List.filter is_entry is_FromAddCh length].
      rewrite !count_app.
      destruct (Run_add_trace env c e) as (A1 & A2).
      destruct (IH (Run_add env c e).1) as (I1 & I2 & I3). lia.
Qed.

(** ** Loading *)

(** X24.  [Load] does not report a failed read of the ConfigMap, whatever
    the error, nor a ConfigMap without the injector key: it returns no
    error and a watcher named after the ConfigMap with an empty cache and no
    namespace, for which [Start] runs a single watch, for namespace [""]
    (all namespaces). *)
Theorem Load_without_settings_watches_all (env : Env)
    (decode_injector : string → error + agentInjectorConfig) (namespace : string) :
  ((∃ err, api_Get env namespace (agent_ConfigMap env) = inl err)
   ∨ (∃ cm, api_Get env namespace (agent_ConfigMap env) = inr cm
        ∧ go_lookup (Data cm) (agent_InjectorKey env) = None)) →
  ∃ w, (Load env decode_injector namespace).2 = inr w
       ∧ w = NewWatcher (agent_ConfigMap env) []
       ∧ Start w = ([""], None)
       ∧ ∀ key ns, GetInto env w key ns = (None, None).
Proof.
  intros H. exists (NewWatcher (agent_ConfigMap env) []).
  split; [|split; [done|split; [done|]]].
  - unfold Load. destruct H as [[err ->]|(cm & -> & ->)]; done.
  - intros key ns. rewrite GetInto_cached. unfold cached, NewWatcher. cbn [data].
    by rewrite lookup_empty.
Qed.

Lemma Load_without_settings_watches_all_witness :
  (Load sample_env_forbidden sample_decode_injector "ambassador").2
  = inr (NewWatcher "telepresence-agents" []).
Proof.
  destruct (Load_without_settings_watches_all sample_env_forbidden sample_decode_injector
              "ambassador") as (w & Hw & -> & _).
  - left. by eexists.
  - exact Hw.
Defined.

(** X25.  When the ConfigMap is read and holds the injector key, [Load]
    decodes its value: a value that does not decode is the one error [Load]
    returns, with no watcher; otherwise the watcher has the namespaces of
    the settings and an empty cache, whatever the [namespaced] flag says,
    and [Start] runs one watch per namespace, or the single watch for all
    namespaces when the settings list none. *)
Theorem Load_uses_injector_namespaces (env : Env)
    (decode_injector : string → error + agentInjectorConfig) (namespace : string)
    (cm : ConfigMapObj) (v : string) :
  api_Get env namespace (agent_ConfigMap env) = inr cm →
  go_lookup (Data cm) (agent_InjectorKey env) = Some v →
  match decode_injector v with
  | inl err =>
      Load env decode_injector namespace
      = ([CallGet namespace (agent_ConfigMap env)], inl err)
  | inr ic =>
      (Load env decode_injector namespace).2
      = inr (NewWatcher (agent_ConfigMap env) (Namespaces ic))
      ∧ (Start (NewWatcher (agent_ConfigMap env) (Namespaces ic))).1
        = (if decide (Namespaces ic = []) then [""] else Namespaces ic)
  end.
Proof.
  intros Hget Hkey. unfold Load. rewrite Hget, Hkey.
  destruct (decode_injector v) as [err|ic]; [done|]. split; [done|].
  unfold Start, NewWatcher. cbn [fst namespaces]. by destruct (Namespaces ic).
Qed.

Lemma Load_uses_injector_namespaces_witness :
  (Load sample_env_settings sample_decode_injector "ambassador").2
  = inr (NewWatcher "telepresence-agents" ["ns"; "other"]).
Proof.
  exact (proj1 (Load_uses_injector_namespaces sample_env_settings sample_decode_injector
                  "ambassador"
                  (mkConfigMap "telepresence-agents" "ambassador"
                     (Some {[ "agentInjector" := "namespaced: true" ]}))
                  "namespaced: true" eq_refl eq_refl)).
Defined.

(** ** The helper of the tests *)

Section snapshot_equal_props.
Context {V : Type}.

Lemma elem_of_keys (m : gmap string V) (k : string) :
  k ∈ watchable_test.keys m ↔ is_Some (m !! k).
Proof.
  unfold watchable_test.keys. rewrite list_elem_of_fmap. split.
  - intros ([k' v] & -> & Hin). apply elem_of_map_to_list in Hin. eauto.
  - intros [v Hv]. exists (k, v). split; [done|]. by apply elem_of_map_to_list.
Qed.
End snapshot_equal_props.

(** X26.  [assertMAPTYPESnapshotEqual] accepts two snapshots exactly when
    they are the same map: the same keys, and under every key values that
    [assertDeepCopies] accepts, taken here to accept exactly equal
    values. *)
Theorem assertMAPTYPESnapshotEqual_iff_equal {V : Type} (zero : V)
    (assertDeepCopies : V → V → bool) (expected actual : gmap string V) :
  (∀ a b, assertDeepCopies a b = true ↔ a = b) →
  watchable_test.assertMAPTYPESnapshotEqual zero assertDeepCopies expected actual = true
  ↔ expected = actual.
Proof.
  intros Hdeep. unfold watchable_test.assertMAPTYPESnapshotEqual,
    watchable_test.ElementsMatch. split.
  - case_bool_decide as Hkeys; cbn [negb]; [|done]. intros Hall.
    rewrite forallb_forall in Hall. apply map_eq. intros k.
    assert (Hk : is_Some (expected !! k) ↔ is_Some (actual !! k)).
    { rewrite <- !elem_of_keys. by rewrite Hkeys. }
    destruct (actual !! k) as [v|] eqn:Ha.
    + destruct (proj2 Hk (mk_is_Some _ _ eq_refl)) as [v' Hv'].
      specialize (Hall (k, v)). cbn [fst snd] in Hall. rewrite Hv' in Hall.
      cbn [default] in Hall. f_equal. rewrite Hv'. f_equal. apply Hdeep, Hall.
      apply list_elem_of_In. by apply elem_of_map_to_list.
    + destruct (expected !! k) as [v'|] eqn:He; [|done].
      destruct (proj1 Hk (mk_is_Some _ _ eq_refl)) as [? ?]. done.
  - intros ->. rewrite bool_decide_true by done. cbn [negb].
    apply forallb_forall. intros [k v] Hin. cbn [fst snd].
    apply list_elem_of_In, elem_of_map_to_list in Hin. rewrite Hin. cbn [default].
    by apply Hdeep.
Qed.

Lemma assertMAPTYPESnapshotEqual_iff_equal_witness :
  watchable_test.assertMAPTYPESnapshotEqual "" (λ a b : string, bool_decide (a = b))
    ({[ "a" := "A"; "b" := "B" ]} : gmap string string) {[ "b" := "B"; "a" := "A" ]}
  = true.
Proof.
  apply (assertMAPTYPESnapshotEqual_iff_equal "" (λ a b : string, bool_decide (a = b))).
  - intros a b. apply bool_decide_eq_true.
  - by vm_compute.
Defined.

(** ** The observable map, continued *)

Section watchable_more.
Context {V : Type} `{EqDecision V}.
Implicit Types (m : watchable.Map V) (s : watchable.subscription V).

Lemma coalescing_Store (last : gmap string V) (i : nat) m (k : string) (v : V) :
  coalescing last i m → coalescing last i (watchable.Store k v m).
Proof.
  intros (s & Hs & Hi & Hl & Hc & Hd). unfold watchable.Store.
  destruct (watchable.closed m); [by exists s|].
  destruct (decide (watchable.content m !! k = Some v)); [by exists s|].
  eexists. simpl. rewrite list_lookup_fmap, Hs. simpl.
  rewrite touch_all by eauto. split; [done|]. by rewrite Hc.
Qed.

Lemma coalescing_Delete (last : gmap string V) (i : nat) m (k : string) :
  coalescing last i m → coalescing last i (watchable.Delete k m).
Proof.
  intros (s & Hs & Hi & Hl & Hc & Hd). unfold watchable.Delete.
  destruct (watchable.closed m); [by exists s|].
  destruct (watchable.content m !! k) as [old|] eqn:Hk; [|by exists s].
  eexists. simpl. rewrite list_lookup_fmap, Hs. simpl.
  rewrite touch_all by eauto. split; [done|]. by rewrite Hc.
Qed.

Lemma coalescing_writes (last : gmap string V) (i : nat) m (ws : list (watchable.write V)) :
  coalescing last i m → coalescing last i (watchable.apply_writes m ws).
Proof.
  revert m. induction ws as [|w ws IH]; intros m Hm; [done|].
  simpl. apply IH. destruct w as [k v|k|k|k v]; simpl.
  - by apply coalescing_Store.
  - by apply coalescing_Delete.
  - by apply coalescing_Delete.
  - unfold watchable.LoadOrStore.
    destruct (watchable.content m !! k); [done|]. by apply coalescing_Store.
Qed.

Lemma coalescing_recv (last : gmap string V) (i : nat) m :
  coalescing last i m →
  ((watchable.recv i m).1 = watchable.Snapshot (watchable.content m)
   ∨ (watchable.recv i m).1 = watchable.WouldBlock ∧ watchable.content m = last)
  ∧ (watchable.recv i (watchable.recv i m).2).1 = watchable.WouldBlock.
Proof.
  intros (s & Hs & Hi & Hl & Hc & Hd).
  assert (Hlen : i < length (watchable.subs m)) by (by eapply lookup_lt_Some).
  destruct (watchable.dirty s) eqn:Hdirty.
  - assert (Hrecv : watchable.recv i m
              = (watchable.Snapshot (watchable.content m),
                 {| watchable.content := watchable.content m;
                    watchable.subs :=
                      <[i := {| watchable.include := watchable.include s;
                                watchable.dirty := false;
                                watchable.chan := None;
                                watchable.live := true |}]> (watchable.subs m);
                    watchable.closed := watchable.closed m |})).
    { unfold watchable.recv. rewrite Hs, Hl, Hc, Hdirty. cbn [negb].
      by rewrite Hi, snapshot_all. }
    rewrite Hrecv. cbn [fst snd]. split; [by left|].
    unfold watchable.recv. cbn [watchable.subs].
    by rewrite list_lookup_insert_eq by done.
  - assert (Hrecv : watchable.recv i m = (watchable.WouldBlock, m)).
    { unfold watchable.recv. by rewrite Hs, Hl, Hc, Hdirty. }
    rewrite Hrecv. cbn [fst snd]. rewrite Hrecv. split; [|done].
    right. split; [done|]. by apply Hd.
Qed.
End watchable_more.

(** X27.  Writes coalesce (on the model of the observable map that the
    test template exercises): for a subscription to everything that has
    been read and waits, any number of stores and deletes made before the
    next read give one snapshot, the content after all of them, and the
    read after that waits; when the writes left the content as it was, the
    next read may wait instead. *)
Theorem writes_coalesce_into_one_snapshot {V : Type} `{EqDecision V}
    (m : watchable.Map V) (i : nat) (ws : list (watchable.write V)) :
  drained i m →
  let m' := watchable.apply_writes m ws in
  ((watchable.recv i m').1 = watchable.Snapshot (watchable.LoadAll m')
   ∨ (watchable.recv i m').1 = watchable.WouldBlock
     ∧ watchable.LoadAll m' = watchable.LoadAll m)
  ∧ (watchable.recv i (watchable.recv i m').2).1 = watchable.WouldBlock.
Proof.
  intros (s & Hs & Hi & Hl & Hc & Hd). cbn zeta.
  apply (coalescing_recv (watchable.content m)). apply coalescing_writes.
  exists s. by repeat split.
Qed.

Lemma writes_coalesce_into_one_snapshot_witness :
  let m := (watchable.recv 0 (watchable.Subscribe abc).1).2 in
  let m' := watchable.apply_writes m
              [watchable.WStore "d" "D"; watchable.WStore "e" "E"; watchable.WStore "f" "F"] in
  (watchable.recv 0 (watchable.recv 0 m').2).1 = watchable.WouldBlock.
Proof.
  cbn zeta.
  refine (proj2 (writes_coalesce_into_one_snapshot
                   (watchable.recv 0 (watchable.Subscribe abc).1).2 0
                   [watchable.WStore "d" "D"; watchable.WStore "e" "E";
                    watchable.WStore "f" "F"] _)).
  eexists. split; [by vm_compute|]. by repeat split.
Defined.

Section watchable_cancel.
Context {V : Type} `{EqDecision V}.
Implicit Types (m : watchable.Map V).

Lemma Store_subs_length m (k : string) (v : V) :
  length (watchable.subs (watchable.Store k v m)) = length (watchable.subs m).
Proof.
  unfold watchable.Store. destruct (watchable.closed m); [done|].
  destruct (decide (watchable.content m !! k = Some v)); [done|].
  cbn [watchable.subs]. by rewrite length_fmap.
Qed.

Lemma Delete_subs_length m (k : string) :
  length (watchable.subs (watchable.Delete k m)) = length (watchable.subs m).
Proof.
  unfold watchable.Delete. destruct (watchable.closed m); [done|].
  destruct (watchable.content m !! k); [|done].
  cbn [watchable.subs]. by rewrite length_fmap.
Qed.

Lemma apply_write_subs_length m (w : watchable.write V) :
  length (watchable.subs (watchable.apply_write m w)) = length (watchable.subs m).
Proof.
  destruct w as [k v|k|k|k v]; cbn [watchable.apply_write].
  - apply Store_subs_length.
  - apply Delete_subs_length.
  - unfold watchable.LoadAndDelete. cbn [snd]. apply Delete_subs_length.
  - unfold watchable.LoadOrStore. destruct (watchable.content m !! k); cbn [snd]; [done|].
    apply Store_subs_length.
Qed.

Lemma apply_writes_subs_length m (ws : list (watchable.write V)) :
  length (watchable.subs (watchable.apply_writes m ws)) = length (watchable.subs m).
Proof.
  revert m. induction ws as [|w ws IH]; intros m; [done|].
  simpl. by rewrite IH, apply_write_subs_length.
Qed.

Lemma recv_cancelled m (i : nat) :
  i < length (watchable.subs m) →
  watchable.recv i (watchable.cancel i m) = (watchable.EndOfStream, watchable.cancel i m).
Proof.
  intros Hi. apply lookup_lt_is_Some in Hi as [s Hs].
  unfold watchable.recv, watchable.cancel. cbn [watchable.subs].
  by rewrite list_lookup_alter_eq, Hs.
Qed.

Lemma recv_other_cancelled m (i j : nat) :
  j ≠ i → (watchable.recv j (watchable.cancel i m)).1 = (watchable.recv j m).1.
Proof.
  intros Hne. unfold watchable.recv, watchable.cancel. cbn [watchable.subs watchable.content].
  rewrite list_lookup_alter_ne by done.
  destruct (watchable.subs m !! j) as [s|]; [|done].
  destruct (negb (watchable.live s)); [done|].
  destruct (watchable.chan s); [done|]. by destruct (watchable.dirty s).
Qed.
End watchable_cancel.

(** X28.  Cancelling a subscription closes its channel, whatever was
    pending (on the model of the observable map that the test template
    exercises): after any writes and the cancellation, every read of that
    channel gives end of stream, the content of the map is untouched, and
    the reads of the other subscriptions give what they would have
    given. *)
Theorem cancelled_subscription_ends {V : Type} `{EqDecision V}
    (m : watchable.Map V) (i : nat) (ws : list (watchable.write V)) :
  i < length (watchable.subs m) →
  let m1 := watchable.apply_writes m ws in
  let m2 := watchable.cancel i m1 in
  (watchable.recv i m2).1 = watchable.EndOfStream
  ∧ (watchable.recv i (watchable.recv i m2).2).1 = watchable.EndOfStream
  ∧ watchable.LoadAll m2 = watchable.LoadAll m1
  ∧ ∀ j, j ≠ i → (watchable.recv j m2).1 = (watchable.recv j m1).1.
Proof.
  intros Hi. cbn zeta.
  assert (Hi' : i < length (watchable.subs (watchable.apply_writes m ws)))
    by (by rewrite apply_writes_subs_length).
  rewrite !recv_cancelled by done. cbn [fst snd]. rewrite recv_cancelled by done.
  split; [done|]. split; [done|]. split; [done|].
  intros j Hj. by apply recv_other_cancelled.
Qed.

Lemma cancelled_subscription_ends_witness :
  (watchable.recv 0
     (watchable.cancel 0
        (watchable.apply_writes (watchable.Subscribe abc).1
           [watchable.WStore "g" "G"; watchable.WStore "h" "H"]))).1
  = watchable.EndOfStream.
Proof.
  refine (proj1 (cancelled_subscription_ends (watchable.Subscribe abc).1 0
                   [watchable.WStore "g" "G"; watchable.WStore "h" "H"] _)).
  unfold watchable.Subscribe, watchable.SubscribeSubset. cbn [fst watchable.subs].
  rewrite length_app. cbn [length]. lia.
Defined.
